(** * asasvirtuais/react: index store, single-flight guards, table
      reconciliation and scoped injection

    A shallow embedding of [src/hooks.ts] ([useAction], [useIndex]), of the
    CRUD layer ([database], [useTableProvider], [useMethod]), of
    [createContextFromHook] and of the accessors [useFields] and [useForm],
    followed by the properties the specification states about them.

    Where the code is: [useAction] and [useIndex] in [src/hooks.ts];
    [useFields] in [src/fields.tsx]; the modules imported as [./forms],
    [./crud] and [./context] follow the tests in
    [src/test/fields.test.tsx] ([useForm] from line 262, [database] with
    [useTableProvider] and [useMethod] from line 401,
    [createContextFromHook] from line 761).  Also embedded: the mount
    effect of [useAction], [useFieldsProvider] ([register], [setField]),
    [useFormHook] and [FormProvider], [useTable], [useSingleProvider] and
    the submit handlers of [CreateForm], [UpdateForm] and [FilterForm].

    Conventions of the embedding.
    - A JavaScript object used as a record or as a dictionary is a
      [gmap string jsval]; the enumeration order of its properties is not
      modelled (no statement below depends on it).
    - A React state cell is a value; a call of one of its setters is an
      event, and the state after a call is obtained by replaying the events
      in the order in which they were issued.
    - An [async] function is a computation that yields the events it
      performed together with the state of the promise it returned:
      fulfilled, rejected, or still pending when the observation ends. *)

From stdpp Require Import gmap strings list fin_maps pretty.

#[local] Set Warnings "-register-all".
#[local] Open Scope string_scope.
#[local] Open Scope list_scope.

(** ** JavaScript values *)

(** Numbers are restricted to integers, which JavaScript prints in decimal
    when they are used as a property key (below 10^21 in magnitude);
    functions and symbols do not occur in the data the modelled code
    inspects. *)
Inductive jsval : Type :=
  | JUndefined
  | JNull
  | JBool (b : bool)
  | JNum (z : Z)
  | JStr (s : string)
  | JObj (props : gmap string jsval)
  | JArr (items : list jsval).

Abbreviation object := (gmap string jsval).

(** ToBoolean. *)
Definition truthy (v : jsval) : bool :=
  match v with
  | JUndefined | JNull => false
  | JBool b => b
  | JNum z => negb (z =? 0)%Z
  | JStr s => negb (String.eqb s "")
  | JObj _ | JArr _ => true
  end.

(** ToString, as applied by ToPropertyKey to the computed key of
    [[data.id, data]] and of [newState[id]]: an array prints its elements
    separated by commas, [null] and [undefined] elements as nothing. *)
Fixpoint ToString (v : jsval) : string :=
  match v with
  | JUndefined => "undefined"
  | JNull => "null"
  | JBool true => "true"
  | JBool false => "false"
  | JNum z => pretty z
  | JStr s => s
  | JObj _ => "[object Object]"
  | JArr items =>
      String.concat ","
        (map (λ item, match item with
                      | JUndefined | JNull => ""
                      | _ => ToString item
                      end) items)
  end.

Definition ToPropertyKey (v : jsval) : string := ToString v.

(** [o.k] on an object: a missing property reads as [undefined]. *)
Definition get (o : object) (k : string) : jsval :=
  default JUndefined (o !! k).

(** [v.k] on an arbitrary value: reading a property of [null] or
    [undefined] throws a TypeError ([None]); primitives and arrays have no
    property of the names read by the modelled code. *)
Definition member (v : jsval) (k : string) : option jsval :=
  match v with
  | JUndefined | JNull => None
  | JObj o => Some (get o k)
  | _ => Some JUndefined
  end.

(** [{ ...a, ...b }]: the properties of [b] win over those of [a]. *)
Definition spread {A} (a b : gmap string A) : gmap string A := b ∪ a.

(** [Object.fromEntries]: later entries overwrite earlier ones. *)
Definition Object_fromEntries {A} (entries : list (string * A)) : gmap string A :=
  foldl (λ o kv, <[kv.1 := kv.2]> o) ∅ entries.

(** [Object.values] (in an unspecified order). *)
Definition Object_values {A} (o : gmap string A) : list A :=
  (map_to_list o).*2.

(** [new Error(message)]. *)
Definition Error (message : string) : jsval :=
  JObj {[ "message" := JStr message ]}.

(** The error thrown by the engine on [null.id] or [undefined.id]. *)
Definition TypeError : jsval :=
  JObj {[ "name" := JStr "TypeError" ]}.

(** ** Promises and asynchronous computations *)

Inductive Promise (A : Type) : Type :=
  | Fulfilled (a : A)
  | Rejected (reason : jsval)
  | Pending.
Arguments Fulfilled {A} a.
Arguments Rejected {A} reason.
Arguments Pending {A}.

(** An asynchronous computation over events [E]: the events performed so
    far, and the state of the returned promise. *)
Definition Async (E A : Type) : Type := list E * Promise A.

#[global] Instance Async_ret {E} : MRet (Async E) :=
  λ A a, ([], Fulfilled a).

#[global] Instance Async_bind {E} : MBind (Async E) :=
  λ A B k m,
    match m with
    | (t, Fulfilled a) => let '(t', r) := k a in (t ++ t', r)
    | (t, Rejected reason) => (t, Rejected reason)
    | (t, Pending) => (t, Pending)
    end.

Definition emit {E} (e : E) : Async E unit := ([e], Fulfilled tt).

Definition throw {E A} (reason : jsval) : Async E A := ([], Rejected reason).

(** Run a computation of an inner layer, embedding its events. *)
Definition lift {E E' A} (f : E → E') (m : Async E A) : Async E' A :=
  (f <$> m.1, m.2).

(** [try { body } catch (err) { handler err }]. *)
Definition try_catch {E A} (body : Async E A) (handler : jsval → Async E A)
    : Async E A :=
  match body with
  | (t, Rejected reason) => let '(t', r) := handler reason in (t ++ t', r)
  | settled => settled
  end.

(** [try { body } finally { fin }]: [fin] runs once [body] has completed,
    whichever way, and the completion of [body] is kept unless [fin] itself
    does not complete normally. *)
Definition try_finally {E A} (body : Async E A) (fin : Async E unit)
    : Async E A :=
  match body with
  | (t, Pending) => (t, Pending)
  | (t, r) =>
      match fin with
      | (t', Fulfilled _) => (t ++ t', r)
      | (t', Rejected reason) => (t ++ t', Rejected reason)
      | (t', Pending) => (t ++ t', Pending)
      end
  end.

(** ** hooks.ts: useIndex *)

(** [Record<string, T>]. *)
Abbreviation Index := (gmap string jsval).

(** [(data as readable & { id: string }).id] used as a property key. *)
Definition id_key (data : object) : string := ToPropertyKey (get data "id").

(** [const array = useMemo(() => Object.values(index), [index])] *)
Definition useIndex_array (index : Index) : list jsval := Object_values index.

(** [set(...params)]: the updater given to [setIndex]:
    [prev => ({ ...prev, ...Object.fromEntries(params.map(data => [data.id, data])) })] *)
Definition useIndex_set (params : list object) (prev : Index) : Index :=
  spread prev (Object_fromEntries ((λ data, (id_key data, JObj data)) <$> params)).

(** [remove(...params)]: the updater given to [setIndex]:
    [newState = { ...prev }; for (data of params) { id = data.id;
     if (newState[id]) delete newState[id] }; return newState].
    A key that is no own property of [newState] reads as [undefined], or as
    an inherited member of [Object.prototype], for which [delete] does
    nothing: in both cases [newState] is left as it is. *)
Definition useIndex_remove (params : list object) (prev : Index) : Index :=
  foldl (λ newState data,
           let id := id_key data in
           match newState !! id with
           | Some stored => if truthy stored then delete id newState else newState
           | None => newState
           end)
        prev params.

(** The data model's reading of an Index: every entity is stored under its
    own identity. *)
Definition stored_under_identity (k : string) (v : jsval) : Prop :=
  match v with
  | JObj entity => id_key entity = k
  | _ => True
  end.

#[global] Instance stored_under_identity_dec k v : Decision (stored_under_identity k v) :=
  match v with
  | JObj entity => decide (id_key entity = k)
  | _ => left I
  end.

Definition keyed_by_identity (index : Index) : Prop :=
  map_Forall stored_under_identity index.

(** ** hooks.ts and crud.tsx: the single-flight guards *)

(** The three state cells of a guard.  [error] holds whatever was caught
    ([null] or [undefined] when there is none); [result] is [undefined]
    ([None]) until a call succeeds. *)
Record GuardState (R : Type) : Type := mkGuard {
  loading : bool;
  error : jsval;
  result : option R;
}.
Arguments mkGuard {R} _ _ _.
Arguments loading {R} _.
Arguments error {R} _.
Arguments result {R} _.

(** What a [trigger] call does, in order: calls of the guard's own state
    setters, the invocation of the wrapped operation with its payload, and
    whatever the wrapped operation itself performs. *)
Inductive GuardEvent (P R E : Type) : Type :=
  | SetLoading (b : bool)
  | SetError (e : jsval)
  | SetResult (r : R)
  | Invoke (payload : P)
  | Inner (e : E).
Arguments SetLoading {P R E} b.
Arguments SetError {P R E} e.
Arguments SetResult {P R E} r.
Arguments Invoke {P R E} payload.
Arguments Inner {P R E} e.

Section Guard.
Context {P R E : Type}.

(** The effect of one setter call on the guard's state. *)
Definition guard_step (st : GuardState R) (ev : GuardEvent P R E) : GuardState R :=
  match ev with
  | SetLoading b => mkGuard b (error st) (result st)
  | SetError e => mkGuard (loading st) e (result st)
  | SetResult r => mkGuard (loading st) (error st) (Some r)
  | Invoke _ | Inner _ => st
  end.

(** The guard's state once the setter calls of a trace are applied. *)
Definition guard_after (t : list (GuardEvent P R E)) (st : GuardState R) : GuardState R :=
  foldl guard_step st t.

(** The payloads with which the wrapped operation was invoked. *)
Definition invocations (t : list (GuardEvent P R E)) : list P :=
  omap (λ ev, match ev with Invoke p => Some p | _ => None end) t.

(** The events of the wrapped operation itself. *)
Definition inner_events (t : list (GuardEvent P R E)) : list E :=
  omap (λ ev, match ev with Inner e => Some e | _ => None end) t.

(** [await f(payload)] inside a guard. *)
Definition call (f : P → Async E R) (payload : P) : Async (GuardEvent P R E) R :=
  emit (Invoke payload) ;; lift Inner (f payload).

(** crud.tsx, [useMethod(method)]: the initial state and [trigger].
    [loading] is the value captured by the closure of the render in
    which [trigger] was created.  [console.error] is not modelled. *)
Definition useMethod_init : GuardState R := mkGuard false JNull None.

Definition useMethod_trigger (method : P → Async E R) (loading : bool) (props : P)
    : Async (GuardEvent P R E) (option R) :=
  if loading then mret None
  else
    emit (SetLoading true) ;;
    emit (SetError JNull) ;;
    try_finally
      (try_catch
         (data ← call method props ;
          emit (SetResult data) ;;
          mret (Some data))
         (λ err,
            emit (SetError err) ;;
            throw err))
      (emit (SetLoading false)).
End Guard.

Section Action.
Context {R E : Type}.

(** hooks.ts, [useAction(action, { onSuccess, defaults })]: the initial
    state and [trigger].  [loading] and [defaults] are the values captured
    by the closure of the render in which [trigger] was created.  After
    the [catch] block the function falls off its end and returns
    [undefined]. *)
Definition useAction_init : GuardState R := mkGuard false JUndefined None.

Definition useAction_trigger
    (action : object → Async E R) (onSuccess : option (R → Async E unit))
    (loading : bool) (defaults : object) (props : object)
    : Async (GuardEvent object R E) (option R) :=
  if loading then mret None
  else
    emit (SetLoading true) ;;
    try_finally
      (try_catch
         (result ← call action (spread props defaults) ;
          emit (SetResult result) ;;
          match onSuccess with
          | Some callback => lift Inner (callback result)
          | None => mret tt
          end ;;
          mret (Some result))
         (λ error,
            emit (SetError error) ;;
            mret None))
      (emit (SetLoading false)).
End Action.

(** ** crud.tsx: the table reconciliation layer *)

Inductive CrudOp : Type := OpFind | OpCreate | OpUpdate | OpRemove | OpList.

(** The backend collaborator [{ find, create, update, remove, list }]: for
    each operation and payload, the state of the promise it returns. *)
Definition CRUD : Type := CrudOp → object → Promise jsval.

(** What a wrapped table method does: the backend call with its payload,
    and the calls of [index.set], [index.remove] and [index.setIndex]. *)
Inductive TableEvent : Type :=
  | BackendCall (op : CrudOp) (payload : object)
  | IndexSet (params : list object)
  | IndexRemove (params : list object)
  | IndexSetIndex (next : Index).

(** The effect of one event on the table's Index. *)
Definition index_step (index : Index) (ev : TableEvent) : Index :=
  match ev with
  | BackendCall _ _ => index
  | IndexSet params => useIndex_set params index
  | IndexRemove params => useIndex_remove params index
  | IndexSetIndex next => next
  end.

Definition index_after (t : list TableEvent) (index : Index) : Index :=
  foldl index_step index t.

Definition backend_calls (t : list TableEvent) : list (CrudOp * object) :=
  omap (λ ev, match ev with BackendCall op p => Some (op, p) | _ => None end) t.

Definition is_index_mutation (ev : TableEvent) : bool :=
  match ev with BackendCall _ _ => false | _ => true end.

Section Table.
Variable methods : CRUD.
Variable table : string.

(** [await methods.op({ ...props, table })] *)
Definition backend (op : CrudOp) (props : object) : Async TableEvent jsval :=
  let payload := <["table" := JStr table]> props in
  ([BackendCall op payload], methods op payload).

(** [if (result && (result as any).id) action(result)]: only an object can
    carry a truthy [id]. *)
Definition when_identified (result : jsval) (action : object → Async TableEvent unit)
    : Async TableEvent unit :=
  match result with
  | JObj entity => if truthy (get entity "id") then action entity else mret tt
  | _ => mret tt
  end.

Definition createWithIndex (props : object) : Async TableEvent jsval :=
  result ← backend OpCreate props ;
  when_identified result (λ entity, emit (IndexSet [entity])) ;;
  mret result.

Definition updateWithIndex (props : object) : Async TableEvent jsval :=
  result ← backend OpUpdate props ;
  when_identified result (λ entity, emit (IndexSet [entity])) ;;
  mret result.

Definition removeWithIndex (props : object) : Async TableEvent jsval :=
  result ← backend OpRemove props ;
  when_identified result (λ entity, emit (IndexRemove [entity])) ;;
  mret result.

(** [result.map((item) => [(item as any).id, item])]: reading [id] from a
    [null] or [undefined] item throws. *)
Definition list_entries (items : list jsval) : option (list (string * jsval)) :=
  mapM (λ item, id ← member item "id" ; Some (ToPropertyKey id, item)) items.

Definition listWithIndex (props : object) : Async TableEvent jsval :=
  result ← backend OpList props ;
  match result with
  | JArr items =>
      match list_entries items with
      | Some entries => emit (IndexSetIndex (Object_fromEntries entries))
      | None => throw TypeError
      end
  | _ => mret tt
  end ;;
  mret result.

(** The operation each of the five guards of [useTableProvider] wraps. *)
Definition table_method (op : CrudOp) : object → Async TableEvent jsval :=
  match op with
  | OpFind => backend OpFind
  | OpCreate => createWithIndex
  | OpUpdate => updateWithIndex
  | OpRemove => removeWithIndex
  | OpList => listWithIndex
  end.

(** [handle.op.trigger(props)] for [handle = useTableProvider({ table })]. *)
Definition table_trigger (op : CrudOp) (loading : bool) (props : object)
    : Async (GuardEvent object jsval TableEvent) (option jsval) :=
  useMethod_trigger (table_method op) loading props.
End Table.

(** [useIndex({ ...(asAbove ?? {}) })] followed by the mount effect
    [setIndex(prev => ({ ...prev, ...asAbove }))]. *)
Definition useTableProvider_index (asAbove : option Index) : Index :=
  let initial := default ∅ asAbove in
  spread initial (default ∅ asAbove).

(** ** context.tsx, fields.tsx, forms.tsx: scoped injection *)

(** The identity of a context object made by [React.createContext]. *)
Definition ContextId : Type := positive.

(** What a component sees of its ancestors: the [Context.Provider]
    elements enclosing it, innermost first, each with the value it
    publishes. *)
Definition Scope (V : Type) : Type := list (ContextId * V).

(** [React.useContext(Context)]: the value of the nearest enclosing
    provider of that very context, or the default given to
    [createContext]. *)
Fixpoint React_useContext {V} (ctx : ContextId) (default_value : V) (scope : Scope V) : V :=
  match scope with
  | [] => default_value
  | (c, v) :: outer =>
      if decide (c = ctx) then v else React_useContext ctx default_value outer
  end.

(** How a synchronous call completes. *)
Inductive Completion (A : Type) : Type :=
  | Return (a : A)
  | Throw (exn : jsval).
Arguments Return {A} a.
Arguments Throw {A} exn.

Section Injection.
(** The published values; all contexts are created with the default
    [undefined], here [None]. *)
Context {V : Type}.

(** [<Context.Provider value={value}>{children}</Context.Provider>]: the
    scope in which the children render. *)
Definition Context_Provider (ctx : ContextId) (value : V) (scope : Scope (option V))
    : Scope (option V) :=
  (ctx, Some value) :: scope.

(** context.tsx, [createContextFromHook(useHook)], for the context object
    [Context] it creates: the [Provider] (as the scope its children
    render in) and the accessor [useContext], which returns
    [React.useContext(Context) as Result]. *)
Definition createContextFromHook {Props} (Context : ContextId) (useHook : Props → V)
    : (Props → Scope (option V) → Scope (option V))
      * (Scope (option V) → Completion (option V)) :=
  (λ props scope, Context_Provider Context (useHook props) scope,
   λ scope, Return (React_useContext Context None scope)).

(** The shape shared by [useFields] and [useForm]:
    [const context = useContext(Context);
     if (context === undefined) throw new Error(message);
     return context]. *)
Definition checked_accessor (Context : ContextId) (message : string)
    (scope : Scope (option V)) : Completion V :=
  match React_useContext Context None scope with
  | None => Throw (Error message)
  | Some context => Return context
  end.

(** fields.tsx *)
Definition useFields (Context : ContextId) : Scope (option V) → Completion V :=
  checked_accessor Context "useFields must be used within a FieldsProvider".

(** forms.tsx *)
Definition useForm (FormReactContext : ContextId) : Scope (option V) → Completion V :=
  checked_accessor FormReactContext "useForm must be used within a FormProvider".
End Injection.

(** ** hooks.ts: useAction, the options and the mount effect *)

(** [useAction(action, { onSuccess, autoTrigger, ...props })]: the rest
    object [props] holds the one remaining option, [defaults], when it was
    passed; the state cell of the defaults starts as [props.defaults ?? {}]. *)
Definition useAction_rest_props (defaults : option object) : object :=
  match defaults with
  | Some d => {[ "defaults" := JObj d ]}
  | None => ∅
  end.

Definition useAction_initial_defaults (defaults : option object) : object :=
  default ∅ defaults.

(** [useEffect(() => { if (autoTrigger) trigger(props) }, [])]: what the
    mount effect does, with the [trigger] of the first render ([loading] is
    [false], the defaults are the initial ones).  The promise of [trigger]
    is not awaited. *)
Definition useAction_mount {R E : Type}
    (action : object → Async E R) (onSuccess : option (R → Async E unit))
    (autoTrigger : bool) (defaults : option object)
    : list (GuardEvent object R E) :=
  if autoTrigger
  then (useAction_trigger action onSuccess false
          (useAction_initial_defaults defaults) (useAction_rest_props defaults)).1
  else [].

(** ** fields.tsx: useFieldsProvider *)

(** What a change handler reads of its event: [e.target.name] and
    [e.target.value]. *)
Record ChangeEvent : Type := mkChange {
  target_name : string;
  target_value : string;
}.

(** [a ?? b] *)
Definition nullish_coalescing (a b : jsval) : jsval :=
  match a with
  | JUndefined | JNull => b
  | _ => a
  end.

(** [handleChange], the updater it gives to [setFields]:
    [prev => ({ ...prev, [fieldName]: value })] with [fieldName] and
    [value] read from the event. *)
Definition handleChange (e : ChangeEvent) (prev : object) : object :=
  <[target_name e := JStr (target_value e)]> prev.

(** What [register(name)] returns. *)
Record Registration : Type := mkRegistration {
  reg_name : string;
  reg_id : string;
  reg_value : jsval;
  reg_onChange : ChangeEvent → object → object;
}.

Definition useFieldsProvider_register (fields : object) (name : string) : Registration :=
  {| reg_name := name;
     reg_id := name;
     reg_value := nullish_coalescing (get fields name) (JStr "");
     reg_onChange := handleChange |}.

(** [setField(name, value)], the updater it gives to [setFields]:
    [prev => ({ ...prev, [name]: value })]. *)
Definition useFieldsProvider_setField (name : string) (value : jsval) (prev : object) : object :=
  <[name := value]> prev.

(** ** forms.tsx: useFormHook and FormProvider *)

Section Form.
Context {R E : Type}.

(** The state cells of the form: [result] and [error] start as [null]. *)
Definition useFormHook_init : GuardState R := mkGuard false JNull None.

(** [submit], as in the text of forms.tsx that stores the result
    (src/test/fields.test.tsx, lines 350-371); [fields] is [fields.fields]
    as captured by the closure.  [e?.preventDefault?.()], [console.log] and
    [console.error] are not modelled. *)
Definition useFormHook_submit (onSubmit : option (jsval → Async E R)) (fields : jsval)
    : Async (GuardEvent jsval R E) bool :=
  emit (SetLoading true) ;;
  emit (SetError JNull) ;;
  try_finally
    (try_catch
       (match onSubmit with
        | Some submitter =>
            if truthy fields
            then result ← call submitter fields ; emit (SetResult result)
            else mret tt
        | None => mret tt
        end)
       (λ err,
          emit (SetError err) ;;
          throw err))
    (emit (SetLoading false)) ;;
  mret false.
End Form.

(** [FormProvider]: [useFormHook(props)] starts with [useFields()], whose
    exception leaves the render; otherwise the children render below a
    provider of the form's value, here built from the fields context by
    [useFormHook]. *)
Definition FormProvider {V : Type} (FieldsContext FormReactContext : ContextId)
    (useFormHook : V → V) (scope : Scope (option V)) : Completion (Scope (option V)) :=
  match useFields FieldsContext scope with
  | Throw exn => Throw exn
  | Return fields => Return (Context_Provider FormReactContext (useFormHook fields) scope)
  end.

(** ** crud.tsx: useTable, the single-entity provider and the forms *)

(** [useDatabaseProvider(tables)] returns the handles it is given; the
    [DatabaseProvider] made from it publishes them, and
    [useTable(name)] is [useDatabase()[name]]: a property read, which
    throws on the [undefined] that [useDatabase] returns outside a
    provider, and is [undefined] ([None]) for a name that is no key. *)
Definition useDatabaseProvider {H : Type} (tables : gmap string H) : gmap string H := tables.

Definition useTable {H : Type} (Context : ContextId) (name : string)
    (scope : Scope (option (gmap string H))) : Completion (option H) :=
  match (createContextFromHook Context (@useDatabaseProvider H)).2 scope with
  | Return (Some tables) => Return (tables !! name)
  | Return None => Throw TypeError
  | Throw exn => Throw exn
  end.

(** What a form handler does: events of the guard it triggers, and events
    of the [onSuccess] callback it was given. *)
Inductive FormEvent (E : Type) : Type :=
  | Guarded (ev : GuardEvent object jsval TableEvent)
  | Callback (e : E).
Arguments Guarded {E} ev.
Arguments Callback {E} e.

Definition guarded_events {E} (t : list (FormEvent E)) : list (GuardEvent object jsval TableEvent) :=
  omap (λ ev, match ev with Guarded g => Some g | _ => None end) t.

Definition callback_events {E} (t : list (FormEvent E)) : list E :=
  omap (λ ev, match ev with Callback e => Some e | _ => None end) t.

(** The members every plain object inherits from [Object.prototype]
    (ECMAScript 2015 and its annex B); the Index is always such an object:
    an object literal, a spread copy or the result of
    [Object.fromEntries]. *)
Definition Object_prototype_members : list string :=
  ["constructor"; "hasOwnProperty"; "isPrototypeOf"; "propertyIsEnumerable";
   "toLocaleString"; "toString"; "valueOf"; "__proto__";
   "__defineGetter__"; "__defineSetter__"; "__lookupGetter__"; "__lookupSetter__"].

(** What [o[k]] reads on a plain object: the own property when there is
    one; else the inherited member of that name (a function, or for
    [__proto__] the prototype itself); else [undefined]. *)
Inductive Property : Type :=
  | Data (v : jsval)
  | Inherited (name : string).

Definition Object_get (o : gmap string jsval) (k : string) : Property :=
  match o !! k with
  | Some v => Data v
  | None => if bool_decide (k ∈ Object_prototype_members) then Inherited k else Data JUndefined
  end.

(** ToBoolean of what was read: functions and objects are truthy. *)
Definition Property_truthy (p : Property) : bool :=
  match p with
  | Data v => truthy v
  | Inherited _ => true
  end.

Section TableConsumers.
Variable methods : CRUD.
Variable table : string.

(** [useSingleProvider({ id, table })]: the state [single] starts as
    [index[id]]; the mount effect is
    [if (!single) find.trigger({ id }).then(setSingle)].  The result is what
    the effect performed and the value of [single] afterwards: the value
    the trigger resolved with ([undefined] for a dropped trigger), or the
    initial one while the trigger is pending or when it is rejected.
    [find_loading] is the flag captured by the [find.trigger] of the
    render that mounts. *)
Definition useSingleProvider (find_loading : bool) (index : Index) (id : string)
    : list (GuardEvent object jsval TableEvent) * Property :=
  let single := Object_get index id in
  if Property_truthy single then ([], single)
  else
    match table_trigger methods table OpFind find_loading {[ "id" := JStr id ]} with
    | (t, Fulfilled found) => (t, Data (default JUndefined found))
    | (t, _) => (t, single)
    end.

(** [SingleProvider]: [if (!value.single) return null], else the children
    render below a provider of [value]. *)
Definition SingleProvider_renders (single : Property) : bool := Property_truthy single.

(** The shape shared by the three [handleSubmit] functions:
    [const result = await guard.trigger(props);
     if (onSuccess) onSuccess(result);
     return result].  A dropped trigger resolves with [undefined]. *)
Definition handleSubmit {E} (op : CrudOp) (loading : bool)
    (onSuccess : option (jsval → Async E unit)) (props : object)
    : Async (FormEvent E) jsval :=
  resolved ← lift Guarded (table_trigger methods table op loading props) ;
  let result := default JUndefined resolved in
  match onSuccess with
  | Some callback => lift Callback (callback result)
  | None => mret tt
  end ;;
  mret result.

(** [CreateForm]: [create.trigger({ data: fields })] *)
Definition CreateForm_handleSubmit {E} (loading : bool)
    (onSuccess : option (jsval → Async E unit)) (fields : jsval) :=
  handleSubmit OpCreate loading onSuccess {[ "data" := fields ]}.

(** [UpdateForm]: [update.trigger({ id, data: fields })] *)
Definition UpdateForm_handleSubmit {E} (id : string) (loading : bool)
    (onSuccess : option (jsval → Async E unit)) (fields : jsval) :=
  handleSubmit OpUpdate loading onSuccess {[ "id" := JStr id; "data" := fields ]}.

(** [FilterForm]: [list.trigger(fields)] *)
Definition FilterForm_handleSubmit {E} (loading : bool)
    (onSuccess : option (jsval → Async E unit)) (fields : object) :=
  handleSubmit OpList loading onSuccess fields.
End TableConsumers.

(** * Properties *)

(** ** Object.fromEntries and spread *)

Section ObjectFacts.
Context {A : Type}.
Implicit Types (entries before after : list (string * A)) (o a b : gmap string A).

Lemma Object_fromEntries_snoc entries k v :
  Object_fromEntries (entries ++ [(k, v)]) = <[k := v]> (Object_fromEntries entries).
Proof. unfold Object_fromEntries. by rewrite foldl_snoc. Qed.

Lemma lookup_Object_fromEntries_None entries k :
  k ∉ entries.*1 → Object_fromEntries entries !! k = None.
Proof.
  induction entries as [|[k' v'] entries IH] using rev_ind; intros Hk.
  - apply lookup_empty.
  - rewrite fmap_app, elem_of_app in Hk. simpl in Hk.
    rewrite Object_fromEntries_snoc, lookup_insert_ne.
    + apply IH. tauto.
    + intros ->. apply Hk. right. apply list_elem_of_here.
Qed.

Lemma lookup_Object_fromEntries_Some entries k v :
  Object_fromEntries entries !! k = Some v → (k, v) ∈ entries.
Proof.
  induction entries as [|[k' v'] entries IH] using rev_ind.
  - change (Object_fromEntries []) with (∅ : gmap string A).
    by rewrite lookup_empty.
  - rewrite Object_fromEntries_snoc, elem_of_app, list_elem_of_singleton.
    destruct (decide (k' = k)) as [->|Hne].
    + rewrite lookup_insert_eq. intros [= ->]. by right.
    + rewrite lookup_insert_ne by done. intros H. left. by apply IH.
Qed.

Lemma lookup_Object_fromEntries_is_Some entries k :
  k ∈ entries.*1 → is_Some (Object_fromEntries entries !! k).
Proof.
  induction entries as [|[k' v'] entries IH] using rev_ind.
  - by intros ?%not_elem_of_nil.
  - rewrite fmap_app, elem_of_app, Object_fromEntries_snoc. simpl.
    destruct (decide (k' = k)) as [->|Hne].
    + rewrite lookup_insert_eq. by eexists.
    + rewrite lookup_insert_ne by done. intros [Hin|Hin%list_elem_of_singleton].
      * by apply IH.
      * by destruct Hne.
Qed.

(** The last entry written under a key is the one that is read back. *)
Lemma lookup_Object_fromEntries_last before after k v :
  k ∉ after.*1 →
  Object_fromEntries (before ++ (k, v) :: after) !! k = Some v.
Proof.
  induction after as [|[k' v'] after IH] using rev_ind; intros Hk.
  - rewrite Object_fromEntries_snoc. apply lookup_insert_eq.
  - rewrite fmap_app, elem_of_app in Hk. simpl in Hk.
    replace (before ++ (k, v) :: after ++ [(k', v')])
      with ((before ++ (k, v) :: after) ++ [(k', v')])
      by (by rewrite <- app_assoc).
    rewrite Object_fromEntries_snoc, lookup_insert_ne.
    + apply IH. tauto.
    + intros ->. apply Hk. right. apply list_elem_of_here.
Qed.

Lemma lookup_Object_fromEntries_NoDup entries k v :
  NoDup entries.*1 → (k, v) ∈ entries → Object_fromEntries entries !! k = Some v.
Proof.
  intros Hnd [before [after ->]]%list_elem_of_split.
  apply lookup_Object_fromEntries_last.
  rewrite fmap_app, fmap_cons in Hnd. simpl in Hnd.
  apply NoDup_app in Hnd as (_ & _ & Hnd). by apply NoDup_cons in Hnd as [? _].
Qed.

Lemma size_Object_fromEntries_NoDup entries :
  NoDup entries.*1 → size (Object_fromEntries entries) = length entries.
Proof.
  induction entries as [|[k v] entries IH] using rev_ind; intros Hnd; [done|].
  rewrite fmap_app in Hnd. apply NoDup_app in Hnd as (Hnd & Hfresh & _).
  rewrite Object_fromEntries_snoc, length_app, map_size_insert_None, IH; simpl.
  - lia.
  - done.
  - apply lookup_Object_fromEntries_None. intros Hin.
    apply (Hfresh _ Hin), list_elem_of_here.
Qed.

Lemma lookup_spread a b k :
  spread a b !! k = match b !! k with Some v => Some v | None => a !! k end.
Proof.
  unfold spread. rewrite lookup_union. by destruct (b !! k), (a !! k).
Qed.

Lemma spread_singleton o k v : spread o (Object_fromEntries [(k, v)]) = <[k := v]> o.
Proof.
  apply map_eq. intros j. rewrite lookup_spread.
  change (Object_fromEntries [(k, v)]) with (<[k := v]> (∅ : gmap string A)).
  destruct (decide (k = j)) as [->|Hne].
  - by rewrite !lookup_insert_eq.
  - rewrite !lookup_insert_ne by done. by rewrite lookup_empty.
Qed.

Lemma elem_of_Object_values o v : v ∈ Object_values o ↔ ∃ k, o !! k = Some v.
Proof.
  unfold Object_values. rewrite list_elem_of_fmap. split.
  - intros [[k v'] [-> Hin]]. exists k. by apply elem_of_map_to_list.
  - intros [k Hk]. exists (k, v). split; [done|]. by apply elem_of_map_to_list.
Qed.

Lemma length_Object_values o : length (Object_values o) = size o.
Proof. unfold Object_values. by rewrite length_fmap, length_map_to_list. Qed.
End ObjectFacts.

(** ** useIndex *)

Section IndexFacts.
Implicit Types (index prev : Index) (e entity : object) (params : list object).

Lemma useIndex_set_one e prev : useIndex_set [e] prev = <[id_key e := JObj e]> prev.
Proof. unfold useIndex_set. simpl. apply spread_singleton. Qed.

Lemma lookup_useIndex_set params prev k :
  useIndex_set params prev !! k =
    match Object_fromEntries ((λ data, (id_key data, JObj data)) <$> params) !! k with
    | Some v => Some v
    | None => prev !! k
    end.
Proof. apply lookup_spread. Qed.

(** Among the arguments of one [set] call that share an identity, the
    last one is the one stored. *)
Lemma useIndex_set_last_wins before after e prev :
  id_key e ∉ id_key <$> after →
  useIndex_set (before ++ e :: after) prev !! id_key e = Some (JObj e).
Proof.
  intros Hlast. rewrite lookup_useIndex_set, fmap_app, fmap_cons.
  rewrite lookup_Object_fromEntries_last; [done|].
  by rewrite <- list_fmap_compose.
Qed.

Lemma useIndex_set_other params prev k :
  k ∉ id_key <$> params → useIndex_set params prev !! k = prev !! k.
Proof.
  intros Hk. rewrite lookup_useIndex_set, lookup_Object_fromEntries_None; [done|].
  by rewrite <- list_fmap_compose.
Qed.

Lemma useIndex_remove_one e prev :
  useIndex_remove [e] prev =
    match prev !! id_key e with
    | Some stored => if truthy stored then delete (id_key e) prev else prev
    | None => prev
    end.
Proof. reflexivity. Qed.

Lemma useIndex_remove_present e prev :
  prev !! id_key e = Some (JObj e) → useIndex_remove [e] prev = delete (id_key e) prev.
Proof. intros H. by rewrite useIndex_remove_one, H. Qed.

(** Removing twice is removing once. *)
Lemma useIndex_remove_idempotent e prev :
  useIndex_remove [e] (useIndex_remove [e] prev) = useIndex_remove [e] prev.
Proof.
  rewrite (useIndex_remove_one e prev).
  destruct (prev !! id_key e) as [stored|] eqn:Hk.
  - destruct (truthy stored) eqn:Ht.
    + by rewrite useIndex_remove_one, lookup_delete_eq.
    + by rewrite useIndex_remove_one, Hk, Ht.
  - by rewrite useIndex_remove_one, Hk.
Qed.

(** The invariant of the data model holds initially and is kept by the
    two updaters. *)
Lemma keyed_by_identity_empty : keyed_by_identity ∅.
Proof. apply map_Forall_empty. Qed.

Lemma keyed_by_identity_set params prev :
  keyed_by_identity prev → keyed_by_identity (useIndex_set params prev).
Proof.
  intros Hprev k v. rewrite lookup_useIndex_set.
  destruct (Object_fromEntries _ !! k) as [w|] eqn:Hk.
  - intros [= <-]. apply lookup_Object_fromEntries_Some in Hk.
    apply list_elem_of_fmap in Hk as [data [[= -> ->] _]]. done.
  - apply Hprev.
Qed.

Lemma keyed_by_identity_remove params prev :
  keyed_by_identity prev → keyed_by_identity (useIndex_remove params prev).
Proof.
  unfold useIndex_remove. revert prev.
  induction params as [|data params IH]; intros prev Hprev; [done|].
  simpl. apply IH.
  destruct (prev !! id_key data) as [stored|]; [|done].
  destruct (truthy stored); [|done].
  by apply map_Forall_delete.
Qed.
End IndexFacts.

(** C8.  In an Index keyed by identity, [set(e)] followed by [set(e')] for
    an [e'] with the identity of [e] keeps the size of the Index and the
    length of [array], and [array] then holds [e'] and no longer [e]; and
    whatever the Index, in one [set] call the last argument carrying an
    identity is the one stored under it. *)
Theorem useIndex_set_overwrites (index : Index) (e e' : object) :
  keyed_by_identity index →
  id_key e' = id_key e →
  e' ≠ e →
  size (useIndex_set [e'] (useIndex_set [e] index)) = size (useIndex_set [e] index)
  ∧ (length (useIndex_array (useIndex_set [e'] (useIndex_set [e] index)))
     = length (useIndex_array (useIndex_set [e] index)))
  ∧ (JObj e' ∈ useIndex_array (useIndex_set [e'] (useIndex_set [e] index)))
  ∧ (JObj e ∉ useIndex_array (useIndex_set [e'] (useIndex_set [e] index)))
  ∧ (∀ (before after : list object) (prev : Index),
       id_key e' ∉ id_key <$> after →
       useIndex_set (before ++ e' :: after) prev !! id_key e' = Some (JObj e')).
Proof.
  intros Hkeyed Hid Hne. rewrite !useIndex_set_one, Hid.
  assert (Hsize : size (<[id_key e := JObj e']> (<[id_key e := JObj e]> index))
                  = size (<[id_key e := JObj e]> index)).
  { apply map_size_insert_Some. rewrite lookup_insert_eq. by eexists. }
  unfold useIndex_array. rewrite !length_Object_values.
  repeat split; try done.
  - apply elem_of_Object_values. exists (id_key e). apply lookup_insert_eq.
  - rewrite elem_of_Object_values. intros [k Hk].
    destruct (decide (id_key e = k)) as [<-|Hk'].
    + rewrite lookup_insert_eq in Hk. congruence.
    + rewrite !lookup_insert_ne in Hk by done. by apply Hkeyed in Hk.
  - intros before after prev. rewrite <- Hid. apply useIndex_set_last_wins.
Qed.

(** The scenario of hooks.test.ts, "should update existing items", next to
    an unrelated entity. *)
Lemma useIndex_set_overwrites_witness :
  let index : Index := {[ "2" := JObj {[ "id" := JStr "2" ]} ]} in
  let e : object := {[ "id" := JStr "1"; "name" := JStr "Item 1" ]} in
  let e' : object := {[ "id" := JStr "1"; "name" := JStr "Updated Item 1" ]} in
  size (useIndex_set [e'] (useIndex_set [e] index)) = size (useIndex_set [e] index)
  ∧ (JObj e' ∈ useIndex_array (useIndex_set [e'] (useIndex_set [e] index)))
  ∧ (JObj e ∉ useIndex_array (useIndex_set [e'] (useIndex_set [e] index))).
Proof.
  intros index e e'.
  destruct (useIndex_set_overwrites index e e') as (Hsize & _ & Hin & Hout & _).
  - apply map_Forall_singleton. reflexivity.
  - reflexivity.
  - intros Heq. apply (f_equal (lookup "name")) in Heq. vm_compute in Heq. discriminate.
  - auto.
Defined.

(** C9.  [remove(e)] for an entity whose identity is no key of the Index
    returns the Index as it was; the updater is a total function, nothing
    is thrown. *)
Theorem useIndex_remove_absent (index : Index) (e : object) :
  index !! id_key e = None →
  useIndex_remove [e] index = index.
Proof. intros Habsent. by rewrite useIndex_remove_one, Habsent. Qed.

(** The scenario of hooks.test.ts, "should handle removing non-existent
    items". *)
Lemma useIndex_remove_absent_witness :
  let index : Index := {[ "1" := JObj {[ "id" := JStr "1"; "name" := JStr "Item 1" ]} ]} in
  let e : object := {[ "id" := JStr "999"; "name" := JStr "Non-existent" ]} in
  useIndex_remove [e] index = index.
Proof.
  intros index e. apply (useIndex_remove_absent index e). reflexivity.
Defined.

(** ** The guards *)

Section GuardFacts.
Context {P R E : Type}.
Implicit Types (t : list (GuardEvent P R E)) (st : GuardState R) (inner : list E).

Lemma guard_after_app t t' st :
  guard_after (t ++ t') st = guard_after t' (guard_after t st).
Proof. apply foldl_app. Qed.

Lemma guard_after_inner inner st :
  guard_after (P := P) (Inner <$> inner) st = st.
Proof. induction inner as [|e inner IH]; [done|apply IH]. Qed.

Lemma invocations_app t t' : invocations (t ++ t') = invocations t ++ invocations t'.
Proof. apply omap_app. Qed.

Lemma invocations_inner inner : invocations (P := P) (R := R) (Inner <$> inner) = [].
Proof. induction inner as [|e inner IH]; [done|apply IH]. Qed.

Lemma inner_events_app t t' : inner_events (t ++ t') = inner_events t ++ inner_events t'.
Proof. apply omap_app. Qed.

Lemma inner_events_inner inner : inner_events (P := P) (R := R) (Inner <$> inner) = inner.
Proof.
  induction inner as [|e inner IH]; [done|].
  change (e :: inner_events (P := P) (R := R) (Inner <$> inner) = e :: inner).
  by rewrite IH.
Qed.

(** What [useMethod]'s [trigger] does when it proceeds, by the way the
    wrapped method settles. *)
Lemma useMethod_trigger_proceeds (method : P → Async E R) props inner settled :
  method props = (inner, settled) →
  useMethod_trigger method false props =
    match settled with
    | Fulfilled data =>
        ([SetLoading true; SetError JNull; Invoke props] ++ (Inner <$> inner)
           ++ [SetResult data; SetLoading false],
         Fulfilled (Some data))
    | Rejected err =>
        ([SetLoading true; SetError JNull; Invoke props] ++ (Inner <$> inner)
           ++ [SetError err; SetLoading false],
         Rejected err)
    | Pending =>
        ([SetLoading true; SetError JNull; Invoke props] ++ (Inner <$> inner), Pending)
    end.
Proof.
  intros Hm. unfold useMethod_trigger, call, lift, mbind, Async_bind, emit. simpl.
  rewrite Hm. destruct settled; simpl; by rewrite ?app_nil_r, <- ?app_assoc.
Qed.

Lemma useMethod_trigger_success (method : P → Async E R) props inner data st :
  method props = (inner, Fulfilled data) →
  (useMethod_trigger method false props).2 = Fulfilled (Some data)
  ∧ guard_after (useMethod_trigger method false props).1 st = mkGuard false JNull (Some data)
  ∧ invocations (useMethod_trigger method false props).1 = [props]
  ∧ (∃ rest, (useMethod_trigger method false props).1
             = SetLoading true :: SetError JNull :: Invoke props :: rest).
Proof.
  intros Hm. rewrite (useMethod_trigger_proceeds _ _ _ _ Hm). simpl.
  rewrite guard_after_app, guard_after_inner, invocations_app, invocations_inner.
  repeat split; eauto.
Qed.

Lemma useMethod_trigger_failure (method : P → Async E R) props inner reason st :
  method props = (inner, Rejected reason) →
  (useMethod_trigger method false props).2 = Rejected reason
  ∧ guard_after (useMethod_trigger method false props).1 st
    = mkGuard false reason (result st)
  ∧ invocations (useMethod_trigger method false props).1 = [props].
Proof.
  intros Hm. rewrite (useMethod_trigger_proceeds _ _ _ _ Hm). simpl.
  rewrite guard_after_app, guard_after_inner, invocations_app, invocations_inner.
  repeat split; eauto.
Qed.

Lemma useMethod_trigger_in_flight (method : P → Async E R) props inner st :
  method props = (inner, Pending) →
  (useMethod_trigger method false props).2 = Pending
  ∧ guard_after (useMethod_trigger method false props).1 st
    = mkGuard true JNull (result st)
  ∧ invocations (useMethod_trigger method false props).1 = [props].
Proof.
  intros Hm. rewrite (useMethod_trigger_proceeds _ _ _ _ Hm). simpl.
  rewrite guard_after_inner, invocations_inner.
  repeat split; eauto.
Qed.

Lemma useMethod_trigger_inner (method : P → Async E R) props :
  inner_events (useMethod_trigger method false props).1 = (method props).1.
Proof.
  destruct (method props) as [inner settled] eqn:Hm.
  rewrite (useMethod_trigger_proceeds _ _ _ _ Hm).
  destruct settled; cbn [fst]; rewrite ?inner_events_app, inner_events_inner; simpl;
    by rewrite ?app_nil_r.
Qed.
End GuardFacts.

Section ActionFacts.
Context {R E : Type}.
Implicit Types (action : object → Async E R) (onSuccess : option (R → Async E unit))
  (defaults props : object) (st : GuardState R) (inner : list E).

(** What [useAction]'s [trigger] does when it proceeds, by the way the
    action and then [onSuccess] complete. *)
Lemma useAction_trigger_proceeds action onSuccess defaults props inner settled :
  action (spread props defaults) = (inner, settled) →
  useAction_trigger action onSuccess false defaults props =
    let head := [SetLoading true; Invoke (spread props defaults)] ++ (Inner <$> inner) in
    match settled with
    | Rejected err => (head ++ [SetError err; SetLoading false], Fulfilled None)
    | Pending => (head, Pending)
    | Fulfilled result =>
        match onSuccess with
        | None => (head ++ [SetResult result; SetLoading false], Fulfilled (Some result))
        | Some callback =>
            match callback result with
            | (t', Fulfilled _) =>
                (head ++ [SetResult result] ++ (Inner <$> t') ++ [SetLoading false],
                 Fulfilled (Some result))
            | (t', Rejected err) =>
                (head ++ [SetResult result] ++ (Inner <$> t')
                   ++ [SetError err; SetLoading false],
                 Fulfilled None)
            | (t', Pending) => (head ++ [SetResult result] ++ (Inner <$> t'), Pending)
            end
        end
    end.
Proof.
  intros Ha. unfold useAction_trigger, call, lift, mbind, Async_bind, emit. simpl.
  rewrite Ha. destruct settled as [result|err|]; simpl.
  - destruct onSuccess as [callback|]; simpl.
    + destruct (callback result) as [t' [[]|err|]]; simpl;
        by rewrite ?app_nil_r, <- ?app_assoc.
    + by rewrite ?app_nil_r, <- ?app_assoc.
  - by rewrite ?app_nil_r, <- ?app_assoc.
  - by rewrite ?app_nil_r.
Qed.

(** The wrapped action is invoked once, with [{ ...props, ...defaults }]. *)
Lemma useAction_trigger_invocations action onSuccess defaults props :
  invocations (useAction_trigger action onSuccess false defaults props).1
  = [spread props defaults].
Proof.
  destruct (action (spread props defaults)) as [inner settled] eqn:Ha.
  rewrite (useAction_trigger_proceeds _ _ _ _ _ _ Ha). cbn zeta.
  destruct settled as [result|err|]; [destruct onSuccess as [callback|];
    [destruct (callback result) as [t' [[]|err|]]|]|..];
    cbn [fst]; rewrite ?invocations_app, ?invocations_inner; simpl;
    by rewrite ?invocations_inner.
Qed.

(** A failure of the action is recorded and not passed on: the promise
    of [trigger] is fulfilled with [undefined]. *)
Lemma useAction_trigger_failure action onSuccess defaults props inner reason st :
  action (spread props defaults) = (inner, Rejected reason) →
  (useAction_trigger action onSuccess false defaults props).2 = Fulfilled None
  ∧ guard_after (useAction_trigger action onSuccess false defaults props).1 st
    = mkGuard false reason (result st).
Proof.
  intros Ha. rewrite (useAction_trigger_proceeds _ _ _ _ _ _ Ha). simpl.
  by rewrite guard_after_app, guard_after_inner.
Qed.

(** A success stores the result and leaves [error] as it was. *)
Lemma useAction_trigger_success action defaults props inner data st :
  action (spread props defaults) = (inner, Fulfilled data) →
  (useAction_trigger action None false defaults props).2 = Fulfilled (Some data)
  ∧ guard_after (useAction_trigger action None false defaults props).1 st
    = mkGuard false (error st) (Some data).
Proof.
  intros Ha. rewrite (useAction_trigger_proceeds _ _ _ _ _ _ Ha). simpl.
  by rewrite guard_after_app, guard_after_inner.
Qed.
End ActionFacts.




(** C6.  When [useAction]'s [trigger] proceeds, the wrapped action is invoked
    once, and in its payload every key of the guard's defaults carries the
    default's value, also where [props] has that key; the other keys carry
    the value from [props]. *)
Theorem useAction_defaults_override {R E : Type}
    (action : object → Async E R) (onSuccess : option (R → Async E unit))
    (defaults props : object) :
  ∃ payload,
    invocations (useAction_trigger action onSuccess false defaults props).1 = [payload]
    ∧ (∀ k d, defaults !! k = Some d → payload !! k = Some d)
    ∧ (∀ k, defaults !! k = None → payload !! k = props !! k).
Proof.
  exists (spread props defaults). split; [apply useAction_trigger_invocations|].
  split; [intros k d Hk|intros k Hk]; by rewrite lookup_spread, Hk.
Qed.

(** A collision: the default [param: 'test'] replaces the caller's
    [param: 'explicit']. *)
Lemma useAction_defaults_override_witness :
  let mockAction : object → Async unit jsval := λ _, ([], Fulfilled (JStr "success")) in
  let defaults : object := {[ "param" := JStr "test" ]} in
  let props : object := {[ "param" := JStr "explicit"; "additional" := JStr "data" ]} in
  ∃ payload,
    invocations (useAction_trigger mockAction None false defaults props).1 = [payload]
    ∧ payload !! "param" = Some (JStr "test")
    ∧ payload !! "additional" = Some (JStr "data").
Proof.
  intros mockAction defaults props.
  destruct (useAction_defaults_override mockAction None defaults props)
    as (payload & Hinv & Hdefault & Hother).
  exists payload. split; [exact Hinv|]. split.
  - apply Hdefault. reflexivity.
  - rewrite Hother; reflexivity.
Defined.

(** C3, on [useAction].  The scenario of hooks.test.ts, "should handle
    action errors": the action rejects with [mockError]; [trigger] records
    it in [error] and turns [loading] off, but the promise it returns is
    fulfilled with [undefined]: the failure does not reach the caller. *)
Theorem useAction_trigger_swallows_failure :
  let mockError := Error "Test error" in
  let mockAction : object → Async unit jsval := λ _, ([], Rejected mockError) in
  let st := guard_after (useAction_trigger mockAction None false ∅ ∅).1 useAction_init in
  (useAction_trigger mockAction None false ∅ ∅).2 = Fulfilled None
  ∧ (useAction_trigger mockAction None false ∅ ∅).2 ≠ Rejected mockError
  ∧ st = mkGuard false mockError None.
Proof.
  intros mockError mockAction st.
  destruct (useAction_trigger_failure mockAction None ∅ ∅ [] mockError useAction_init eq_refl)
    as [Hout Hst].
  split; [exact Hout|]. split; [|exact Hst].
  rewrite Hout. discriminate.
Qed.

(** X12.  The same failure under [useMethod]: it is recorded in [error],
    [result] is kept, [loading] is turned off and the promise of [trigger]
    is rejected with the same reason. *)
Lemma useMethod_trigger_reraises {P R E : Type}
    (method : P → Async E R) (props : P) (inner : list E) (reason : jsval)
    (st : GuardState R) :
  method props = (inner, Rejected reason) →
  (useMethod_trigger method (loading st) props).2
    = (if loading st then Fulfilled None else Rejected reason)
  ∧ (loading st = false →
     guard_after (useMethod_trigger method (loading st) props).1 st
       = mkGuard false reason (result st)).
Proof.
  intros Hm. destruct (loading st) eqn:Hl.
  - by split.
  - destruct (useMethod_trigger_failure method props inner reason st Hm) as (? & ? & _).
    by split.
Qed.

(** C7, on [useAction].  A call that fails followed by a call that
    succeeds: no setter of [error] is called by the second call, neither
    before the action is invoked nor after it succeeded, and the guard
    ends with both the new result and the old failure. *)
Theorem useAction_trigger_keeps_stale_error :
  let mockError := Error "Test error" in
  let failing : object → Async unit jsval := λ _, ([], Rejected mockError) in
  let succeeding : object → Async unit jsval := λ _, ([], Fulfilled (JStr "success")) in
  let st1 := guard_after (useAction_trigger failing None false ∅ ∅).1 useAction_init in
  let second := useAction_trigger succeeding None (loading st1) ∅ ∅ in
  let st2 := guard_after second.1 st1 in
  loading st1 = false
  ∧ second.2 = Fulfilled (Some (JStr "success"))
  ∧ st2 = mkGuard false mockError (Some (JStr "success"))
  ∧ truthy (error st2) = true.
Proof.
  intros mockError failing succeeding st1 second st2.
  destruct (useAction_trigger_failure failing None ∅ ∅ [] mockError useAction_init eq_refl)
    as [_ Hst1].
  assert (Hl : loading st1 = false) by (unfold st1; by rewrite Hst1).
  destruct (useAction_trigger_success succeeding ∅ ∅ [] (JStr "success") st1 eq_refl)
    as [Hout Hst2].
  unfold st2, second. rewrite Hl, Hout, Hst2. unfold st1. rewrite Hst1.
  repeat split.
Qed.

(** X13.  Under [useMethod] a call that proceeds clears [error] before it
    invokes the wrapped method; when the method succeeds the guard ends
    with the result, no error and [loading] off, and the promise of
    [trigger] is fulfilled with the result. *)
Lemma useMethod_trigger_clears_error {P R E : Type}
    (method : P → Async E R) (props : P) (inner : list E) (data : R)
    (st : GuardState R) :
  method props = (inner, Fulfilled data) →
  (∃ rest, (useMethod_trigger method false props).1
           = SetLoading true :: SetError JNull :: Invoke props :: rest)
  ∧ (useMethod_trigger method false props).2 = Fulfilled (Some data)
  ∧ guard_after (useMethod_trigger method false props).1 st
    = mkGuard false JNull (Some data).
Proof.
  intros Hm.
  destruct (useMethod_trigger_success method props inner data st Hm) as (? & ? & _ & ?).
  by repeat split.
Qed.

(** ** The table reconciliation layer *)

Section TableFacts.
Variable methods : CRUD.
Variable table : string.
Implicit Types (op : CrudOp) (props : object) (index : Index) (result : jsval).

Lemma table_payload props :
  (<["table" := JStr table]> props : object) !! "table" = Some (JStr table).
Proof. apply lookup_insert_eq. Qed.

Lemma when_identified_events result action :
  (∀ entity, ∃ ev, action entity = ([ev], Fulfilled tt)) →
  ∃ t, when_identified result action = (t, Fulfilled tt)
       ∧ (t = [] ∨ ∃ entity ev, result = JObj entity ∧ truthy (get entity "id") = true
                                ∧ action entity = ([ev], Fulfilled tt) ∧ t = [ev]).
Proof.
  intros Haction. destruct result as [| | | | |entity|]; simpl; try by (eexists; eauto).
  destruct (truthy (get entity "id")) eqn:Hid; [|by eexists; eauto].
  destruct (Haction entity) as [ev Hev]. exists [ev]. split; [done|].
  right. by exists entity, ev.
Qed.

(** What each wrapped method does, by the way the backend call settles:
    the backend is called first, with the table name written over the
    payload; an Index mutation follows only a fulfilled call. *)
Lemma table_method_events op props :
  ∃ t, (table_method methods table op props).1
       = BackendCall op (<["table" := JStr table]> props) :: t
     ∧ Forall (λ ev, is_index_mutation ev = true) t
     ∧ (t ≠ [] →
        ∃ result, methods op (<["table" := JStr table]> props) = Fulfilled result
          ∧ (op ≠ OpList →
             ∃ entity, result = JObj entity ∧ truthy (get entity "id") = true)).
Proof.
  assert (Hentity : ∀ op' (mutation : object → TableEvent),
    is_index_mutation (mutation ∅) = true →
    (∀ entity, is_index_mutation (mutation entity) = is_index_mutation (mutation ∅)) →
    ∃ t, (result ← backend methods table op' props ;
          when_identified result (λ entity, emit (mutation entity)) ;;
          mret result).1
         = BackendCall op' (<["table" := JStr table]> props) :: t
       ∧ Forall (λ ev, is_index_mutation ev = true) t
       ∧ (t ≠ [] →
          ∃ result, methods op' (<["table" := JStr table]> props) = Fulfilled result
            ∧ ∃ entity, result = JObj entity ∧ truthy (get entity "id") = true)).
  { intros op' mutation Hmut Hall. unfold backend, mbind, Async_bind. simpl.
    destruct (methods op' _) as [result| |] eqn:Hm; simpl;
      try by (exists []; split; [done|]; split; [constructor|]).
    destruct (when_identified_events result (λ entity, emit (mutation entity)))
      as (t & -> & Ht); [intros; by eexists|]. simpl.
    exists t. rewrite app_nil_r. split; [done|].
    destruct Ht as [->|(entity & ev & -> & Hid & [= <-] & ->)].
    - split; [constructor|done].
    - split; [repeat constructor; by rewrite Hall|]. intros _. by eauto 10. }
  destruct op; unfold table_method, createWithIndex, updateWithIndex, removeWithIndex.
  - exists []. split; [done|]. split; [constructor|done].
  - destruct (Hentity OpCreate (λ entity, IndexSet [entity])) as (t & ? & ? & Ht);
      [done..|]. exists t. repeat split; try done.
    intros Hne. destruct (Ht Hne) as (result & ? & ?). eauto.
  - destruct (Hentity OpUpdate (λ entity, IndexSet [entity])) as (t & ? & ? & Ht);
      [done..|]. exists t. repeat split; try done.
    intros Hne. destruct (Ht Hne) as (result & ? & ?). eauto.
  - destruct (Hentity OpRemove (λ entity, IndexRemove [entity])) as (t & ? & ? & Ht);
      [done..|]. exists t. repeat split; try done.
    intros Hne. destruct (Ht Hne) as (result & ? & ?). eauto.
  - unfold listWithIndex, backend, mbind, Async_bind. simpl.
    destruct (methods OpList _) as [result| |] eqn:Hm; simpl;
      try by (exists []; split; [done|]; split; [constructor|]).
    destruct result as [| | | | | |items]; simpl;
      try by (exists []; split; [done|]; split; [constructor|]).
    destruct (list_entries items) as [entries|]; simpl;
      [|by (exists []; split; [done|]; split; [constructor|])].
    eexists. split; [done|]. split; [by repeat constructor|]. intros _.
    exists (JArr items). split; [done|]. intros Hne. by destruct Hne.
Qed.

Lemma table_trigger_inner op props :
  inner_events (table_trigger methods table op false props).1
  = (table_method methods table op props).1.
Proof. apply useMethod_trigger_inner. Qed.

Lemma table_trigger_dropped op props :
  table_trigger methods table op true props = ([], Fulfilled None).
Proof. reflexivity. Qed.

Lemma backend_calls_mutations (t : list TableEvent) :
  Forall (λ ev, is_index_mutation ev = true) t → backend_calls t = [].
Proof.
  induction 1 as [|ev t Hev _ IH]; [done|]. by destruct ev.
Qed.

Lemma list_entries_objects (entities : list object) :
  list_entries (JObj <$> entities) = Some ((λ e, (id_key e, JObj e)) <$> entities).
Proof.
  unfold list_entries. induction entities as [|e entities IH]; [done|].
  rewrite fmap_cons. simpl in *. by rewrite IH.
Qed.

(** A fulfilled [list] call that returned an array of entities has
    replaced the Index by the entries built from that array. *)
Lemma listWithIndex_fulfilled props (entities : list object) :
  (listWithIndex methods table props).2 = Fulfilled (JArr (JObj <$> entities)) →
  (listWithIndex methods table props).1
  = [BackendCall OpList (<["table" := JStr table]> props);
     IndexSetIndex (Object_fromEntries ((λ e, (id_key e, JObj e)) <$> entities))].
Proof.
  unfold listWithIndex, backend, mbind, Async_bind. simpl.
  destruct (methods OpList _) as [result| |]; simpl; [|done..].
  destruct result as [| | | | | |items]; simpl; try done.
  destruct (list_entries items) as [entries|] eqn:Hentries; simpl; [|done].
  intros [= ->]. rewrite list_entries_objects in Hentries. by injection Hentries as <-.
Qed.
End TableFacts.

Section TableInvariant.
Variable methods : CRUD.
Variable table : string.

Lemma list_entries_keyed (items : list jsval) (entries : list (string * jsval)) :
  list_entries items = Some entries → keyed_by_identity (Object_fromEntries entries).
Proof.
  unfold list_entries. rewrite mapM_Some. intros Hall k v Hk.
  apply lookup_Object_fromEntries_Some in Hk.
  induction Hall as [|item entry items entries Hentry _ IH]; [by apply not_elem_of_nil in Hk|].
  apply elem_of_cons in Hk as [<-|Hk]; [|by apply IH].
  destruct item; simpl in Hentry; try discriminate; by injection Hentry as <- <-.
Qed.

(** Every table operation keeps the Index keyed by identity. *)
Lemma table_method_keeps_keyed (op : CrudOp) (props : object) (index : Index) :
  keyed_by_identity index →
  keyed_by_identity (index_after (table_method methods table op props).1 index).
Proof.
  intros Hkeyed.
  assert (Hentity : ∀ op' (mutation : object → TableEvent),
    (∀ entity idx, keyed_by_identity idx → keyed_by_identity (index_step idx (mutation entity))) →
    keyed_by_identity
      (index_after (result ← backend methods table op' props ;
                    when_identified result (λ entity, emit (mutation entity)) ;;
                    mret result).1 index)).
  { intros op' mutation Hstep. unfold backend, mbind, Async_bind. simpl.
    destruct (methods op' _) as [result| |]; simpl; try done.
    destruct result as [| | | | |entity|]; simpl; try done.
    destruct (truthy (get entity "id")); simpl; [|done]. by apply Hstep. }
  destruct op; unfold table_method, createWithIndex, updateWithIndex, removeWithIndex.
  - done.
  - apply (Hentity OpCreate (λ entity, IndexSet [entity])).
    intros entity idx. apply keyed_by_identity_set.
  - apply (Hentity OpUpdate (λ entity, IndexSet [entity])).
    intros entity idx. apply keyed_by_identity_set.
  - apply (Hentity OpRemove (λ entity, IndexRemove [entity])).
    intros entity idx. apply keyed_by_identity_remove.
  - unfold listWithIndex, backend, mbind, Async_bind. simpl.
    destruct (methods OpList _) as [result| |]; simpl; try done.
    destruct result as [| | | | | |items]; simpl; try done.
    destruct (list_entries items) as [entries|] eqn:Hentries; simpl; [|done].
    by apply (list_entries_keyed items).
Qed.
End TableInvariant.

(** The end-to-end scenario of the specification: [create] resolves to
    Bob, [update] renames him, [remove] resolves to the removed entity. *)
Example create_update_remove_scenario :
  let bob : object := {[ "id" := JStr "3"; "name" := JStr "Bob" ]} in
  let robert : object := {[ "id" := JStr "3"; "name" := JStr "Robert" ]} in
  let methods : CRUD := λ op _,
    match op with
    | OpCreate => Fulfilled (JObj bob)
    | OpUpdate | OpRemove => Fulfilled (JObj robert)
    | _ => Fulfilled JNull
    end in
  let after op props index :=
    index_after (inner_events (table_trigger methods "users" op false props).1) index in
  let index1 := after OpCreate {[ "data" := JObj {[ "name" := JStr "Bob" ]} ]} ∅ in
  let index2 :=
    after OpUpdate {[ "id" := JStr "3"; "data" := JObj {[ "name" := JStr "Robert" ]} ]}
          index1 in
  let index3 := after OpRemove {[ "id" := JStr "3" ]} index2 in
  useIndex_array index1 = [JObj bob]
  ∧ useIndex_array index2 = [JObj robert]
  ∧ useIndex_array index3 = []
  ∧ after OpRemove {[ "id" := JStr "3" ]} index3 = index3.
Proof. vm_compute. repeat split. Qed.

(** C5.  Whatever [props] the caller of [trigger] passes, a [table] field
    included, each of the five guarded operations of a table handle calls
    the backend (once, unless the call is dropped) with a payload whose
    [table] is the name the handle was built with; the other fields are
    the caller's. *)
Theorem table_name_is_fixed (methods : CRUD) (table : string) (op : CrudOp)
    (loading : bool) (props : object) :
  backend_calls (inner_events (table_trigger methods table op loading props).1)
  = (if loading then [] else [(op, <["table" := JStr table]> props)])
  ∧ (∀ op' payload,
       (op', payload) ∈ backend_calls
                          (inner_events (table_trigger methods table op loading props).1) →
       op' = op
       ∧ payload !! "table" = Some (JStr table)
       ∧ (∀ k, k ≠ "table" → payload !! k = props !! k)).
Proof.
  assert (Hcalls :
    backend_calls (inner_events (table_trigger methods table op loading props).1)
    = (if loading then [] else [(op, <["table" := JStr table]> props)])).
  { destruct loading; [done|]. rewrite table_trigger_inner.
    destruct (table_method_events methods table op props) as (t & -> & Ht & _).
    simpl. by rewrite (backend_calls_mutations t Ht). }
  split; [exact Hcalls|]. rewrite Hcalls. intros op' payload Hin.
  destruct loading; [by apply not_elem_of_nil in Hin|].
  apply list_elem_of_singleton in Hin as [= -> ->].
  split; [done|]. split; [apply lookup_insert_eq|].
  intros k Hk. by apply lookup_insert_ne.
Qed.

(** A caller that passes [table: 'posts'] to the [create] guard of the
    [users] handle: the backend is called for [users]. *)
Lemma table_name_is_fixed_witness :
  let methods : CRUD := λ _ _, Fulfilled (JObj {[ "id" := JStr "3"; "name" := JStr "Bob" ]}) in
  let props : object := {[ "table" := JStr "posts"; "data" := JObj {[ "name" := JStr "Bob" ]} ]} in
  ∃ payload,
    backend_calls (inner_events (table_trigger methods "users" OpCreate false props).1)
    = [(OpCreate, payload)]
    ∧ payload !! "table" = Some (JStr "users")
    ∧ payload !! "data" = props !! "data".
Proof.
  intros methods props.
  destruct (table_name_is_fixed methods "users" OpCreate false props) as [Hcalls Hall].
  exists (<["table" := JStr "users"]> props). split; [exact Hcalls|].
  destruct (Hall OpCreate (<["table" := JStr "users"]> props)) as (_ & Htable & Hother).
  - rewrite Hcalls. apply list_elem_of_here.
  - split; [exact Htable|]. apply Hother. discriminate.
Defined.

(** C10.  When the backend call of a table operation is rejected, the
    wrapped method issues no Index mutation, the Index is what it was, and
    (unless the call was dropped) the rejection is passed on; conversely an
    Index mutation is issued only after the backend call was fulfilled,
    and for operations other than [list] only with an object whose [id] is
    defined (and truthy). *)
Theorem index_untouched_unless_backend_succeeds (methods : CRUD) (table : string)
    (op : CrudOp) (loading : bool) (props : object) (index : Index) :
  (∀ reason,
     methods op (<["table" := JStr table]> props) = Rejected reason →
     filter (λ ev, is_index_mutation ev = true)
            (inner_events (table_trigger methods table op loading props).1) = []
     ∧ index_after (inner_events (table_trigger methods table op loading props).1) index
       = index
     ∧ (loading = false →
        (table_trigger methods table op loading props).2 = Rejected reason))
  ∧ (∀ ev,
       ev ∈ inner_events (table_trigger methods table op loading props).1 →
       is_index_mutation ev = true →
       ∃ result,
         methods op (<["table" := JStr table]> props) = Fulfilled result
         ∧ (op ≠ OpList →
            ∃ entity, result = JObj entity
                      ∧ get entity "id" ≠ JUndefined
                      ∧ truthy (get entity "id") = true)).
Proof.
  destruct loading; [by split; [intros reason _|intros ev Hin%not_elem_of_nil]|].
  rewrite table_trigger_inner.
  destruct (table_method_events methods table op props) as (t & Ht & Hmut & Hsucc).
  split.
  - intros reason Hm.
    assert (t = []) as ->.
    { destruct t; [done|]. destruct Hsucc as (result & ? & _); [done|congruence]. }
    rewrite Ht. repeat split.
    intros _. unfold table_trigger.
    destruct (table_method methods table op props) as [inner settled] eqn:Hmethod.
    assert (settled = Rejected reason) as ->.
    { clear Ht Hmut Hsucc. revert Hmethod.
      destruct op; unfold table_method, createWithIndex, updateWithIndex,
        removeWithIndex, listWithIndex, backend, mbind, Async_bind; simpl;
        rewrite Hm; by intros [= _ <-]. }
    by rewrite (useMethod_trigger_proceeds _ _ _ _ Hmethod).
  - intros ev Hin Hev. rewrite Ht in Hin.
    apply elem_of_cons in Hin as [->|Hin]; [done|].
    destruct Hsucc as (result & Hm & Hid); [by intros ->; apply not_elem_of_nil in Hin|].
    exists result. split; [done|]. intros Hop.
    destruct (Hid Hop) as (entity & -> & Htruthy). exists entity.
    repeat split; [|done]. intros Hundef. by rewrite Hundef in Htruthy.
Qed.

(** The scenario of crud.test.tsx, "should handle CRUD operation errors":
    [create] rejects with a network error and the Index is untouched. *)
Lemma index_untouched_unless_backend_succeeds_witness :
  let error := Error "Network error" in
  let methods : CRUD := λ _ _, Rejected error in
  let props : object := {[ "data" := JObj {[ "name" := JStr "Bob" ]} ]} in
  let index : Index := {[ "1" := JObj {[ "id" := JStr "1" ]} ]} in
  index_after (inner_events (table_trigger methods "users" OpCreate false props).1) index
  = index
  ∧ (table_trigger methods "users" OpCreate false props).2 = Rejected error.
Proof.
  intros error methods props index.
  destruct (index_untouched_unless_backend_succeeds methods "users" OpCreate false props index)
    as [Hrejected _].
  destruct (Hrejected error eq_refl) as (_ & Hindex & Hout).
  split; [exact Hindex|]. apply Hout. reflexivity.
Defined.

(** C4.  When the [list] guard of a table handle succeeds with an array of
    entities, the Index afterwards is the mapping built from that array
    keyed by identity, whatever it was before: an identity carried by no
    returned entity is no key of the Index any more, every identity that
    was returned is a key and holds a returned entity carrying it, and when
    the returned identities are distinct every returned entity is stored
    under its own and [array] is as long as the result. *)
Theorem list_resynchronises_index (methods : CRUD) (table : string) (props : object)
    (index : Index) (entities : list object) :
  (table_trigger methods table OpList false props).2
  = Fulfilled (Some (JArr (JObj <$> entities))) →
  index_after (inner_events (table_trigger methods table OpList false props).1) index
  = Object_fromEntries ((λ e, (id_key e, JObj e)) <$> entities)
  ∧ (∀ k, k ∉ id_key <$> entities →
       index_after (inner_events (table_trigger methods table OpList false props).1) index
         !! k = None)
  ∧ (∀ e, e ∈ entities →
       ∃ e', e' ∈ entities ∧ id_key e' = id_key e
             ∧ index_after
                 (inner_events (table_trigger methods table OpList false props).1) index
                 !! id_key e = Some (JObj e'))
  ∧ (NoDup (id_key <$> entities) →
       (∀ e, e ∈ entities →
          index_after (inner_events (table_trigger methods table OpList false props).1) index
            !! id_key e = Some (JObj e))
       ∧ length (useIndex_array
                   (index_after
                      (inner_events (table_trigger methods table OpList false props).1)
                      index))
         = length entities).
Proof.
  intros Hout. rewrite table_trigger_inner.
  assert (Hlist : (listWithIndex methods table props).2
                  = Fulfilled (JArr (JObj <$> entities))).
  { unfold table_trigger in Hout.
    destruct (table_method methods table OpList props) as [inner settled] eqn:Hmethod.
    rewrite (useMethod_trigger_proceeds _ _ _ _ Hmethod) in Hout.
    change (listWithIndex methods table props) with (table_method methods table OpList props).
    rewrite Hmethod. destruct settled; simpl in *; congruence. }
  change (table_method methods table OpList props) with (listWithIndex methods table props).
  rewrite (listWithIndex_fulfilled methods table props entities Hlist).
  change (index_after _ index)
    with (Object_fromEntries ((λ e, (id_key e, JObj e)) <$> entities)).
  assert (Hkeys : ((λ e : object, (id_key e, JObj e)) <$> entities).*1 = id_key <$> entities)
    by (by rewrite <- list_fmap_compose).
  split; [done|]. split; [|split].
  - intros k Hk. apply lookup_Object_fromEntries_None. by rewrite Hkeys.
  - intros e He.
    destruct (lookup_Object_fromEntries_is_Some
                ((λ e, (id_key e, JObj e)) <$> entities) (id_key e)) as [v Hlookup].
    { rewrite Hkeys. apply list_elem_of_fmap. by exists e. }
    rewrite Hlookup. apply lookup_Object_fromEntries_Some in Hlookup.
    apply list_elem_of_fmap in Hlookup as (e' & [= Hid ->] & He'). by exists e'.
  - intros Hnd. split.
    + intros e He. apply lookup_Object_fromEntries_NoDup; [by rewrite Hkeys|].
      apply list_elem_of_fmap. by exists e.
    + unfold useIndex_array.
      rewrite length_Object_values, size_Object_fromEntries_NoDup, length_fmap;
        [done|by rewrite Hkeys].
Qed.

(** The scenario of the specification: on an empty table [list] returns
    the entities '1' and '2', then a second [list] returns only '2'. *)
Lemma list_resynchronises_index_witness :
  let one : object := {[ "id" := JStr "1"; "name" := JStr "John" ]} in
  let two : object := {[ "id" := JStr "2"; "name" := JStr "Jane" ]} in
  let first : CRUD := λ _ _, Fulfilled (JArr [JObj one; JObj two]) in
  let second : CRUD := λ _ _, Fulfilled (JArr [JObj two]) in
  let index1 :=
    index_after (inner_events (table_trigger first "users" OpList false ∅).1)
                (useTableProvider_index None) in
  let index2 :=
    index_after (inner_events (table_trigger second "users" OpList false ∅).1) index1 in
  length (useIndex_array index1) = 2
  ∧ length (useIndex_array index2) = 1
  ∧ index1 !! "1" = Some (JObj one)
  ∧ index2 !! "1" = None
  ∧ index2 !! "2" = Some (JObj two).
Proof.
  intros one two first second index1 index2.
  destruct (list_resynchronises_index first "users" ∅ (useTableProvider_index None)
              [one; two] eq_refl) as (_ & _ & _ & Hdistinct1).
  destruct Hdistinct1 as [Hstored1 Hlength1].
  { apply (bool_decide_unpack _). vm_compute. exact I. }
  destruct (list_resynchronises_index second "users" ∅ index1 [two] eq_refl)
    as (_ & Hdropped & _ & Hdistinct2).
  destruct Hdistinct2 as [Hstored2 Hlength2].
  { apply (bool_decide_unpack _). vm_compute. exact I. }
  split; [exact Hlength1|]. split; [exact Hlength2|]. split; [|split].
  - apply (Hstored1 one). apply list_elem_of_here.
  - apply (Hdropped "1"). apply (bool_decide_unpack _). vm_compute. exact I.
  - apply (Hstored2 two). apply list_elem_of_here.
Defined.

(** ** Scoped injection *)

Section InjectionFacts.
Context {V : Type}.
Implicit Types (scope : Scope (option V)) (Context : ContextId).

Lemma React_useContext_unbound Context scope :
  Context ∉ scope.*1 → React_useContext Context (None : option V) scope = None.
Proof.
  induction scope as [|[c v] scope IH]; [done|]. simpl.
  intros Hc. destruct (decide (c = Context)) as [->|_].
  - destruct Hc. apply list_elem_of_here.
  - apply IH. intros Hin. apply Hc. by apply list_elem_of_further.
Qed.

Lemma React_useContext_nearest Context (value : V) scope :
  React_useContext Context None (Context_Provider Context value scope) = Some value.
Proof. simpl. by rewrite decide_True. Qed.

(** The accessors written with the check throw the error that names the
    missing provider. *)
Lemma useFields_without_provider Context scope :
  Context ∉ scope.*1 →
  useFields (V := V) Context scope
  = Throw (Error "useFields must be used within a FieldsProvider").
Proof.
  intros Hc. unfold useFields, checked_accessor.
  by rewrite React_useContext_unbound.
Qed.

Lemma useForm_without_provider Context scope :
  Context ∉ scope.*1 →
  useForm (V := V) Context scope
  = Throw (Error "useForm must be used within a FormProvider").
Proof.
  intros Hc. unfold useForm, checked_accessor.
  by rewrite React_useContext_unbound.
Qed.

Lemma useFields_within_provider Context (value : V) scope :
  useFields Context (Context_Provider Context value scope) = Return value.
Proof. unfold useFields, checked_accessor. by rewrite React_useContext_nearest. Qed.

(** The accessor made by [createContextFromHook] has no such check: with
    no provider of its context around, it returns the default of the
    context, [undefined]. *)
Lemma createContextFromHook_accessor_unbound {Props} Context (useHook : Props → V) scope :
  Context ∉ scope.*1 →
  (createContextFromHook Context useHook).2 scope = Return None.
Proof. intros Hc. simpl. by rewrite React_useContext_unbound. Qed.

Lemma createContextFromHook_accessor_bound {Props} Context (useHook : Props → V)
    (props : Props) scope :
  (createContextFromHook Context useHook).2
    ((createContextFromHook Context useHook).1 props scope)
  = Return (Some (useHook props)).
Proof. simpl. by rewrite decide_True. Qed.
End InjectionFacts.

(** C1, on [createContextFromHook].  A component outside any provider, or
    below the provider of another binding only, calls the accessor of a
    binding: the call returns [undefined] and throws nothing, where
    [useFields] in the same place throws its missing-provider error. *)
Theorem createContextFromHook_accessor_returns_undefined :
  let useTestHook : string → jsval := λ initialValue, JObj {[ "value" := JStr initialValue ]} in
  let binding := createContextFromHook 1%positive useTestHook in
  let other := createContextFromHook 2%positive useTestHook in
  binding.2 [] = Return None
  ∧ binding.2 (other.1 "test-value" []) = Return None
  ∧ (∀ exn, binding.2 [] ≠ Throw exn)
  ∧ useFields (V := jsval) 3%positive []
    = Throw (Error "useFields must be used within a FieldsProvider").
Proof.
  intros useTestHook binding other. repeat split.
  intros exn. discriminate.
Qed.

(** * Further properties of the code *)

(** ** useIndex: how [set] and [remove] compose *)

Section IndexMore.
Implicit Types (index prev : Index) (e entity : object) (params : list object).

Lemma Object_fromEntries_app {A} (a b : list (string * A)) :
  Object_fromEntries (a ++ b) = spread (Object_fromEntries a) (Object_fromEntries b).
Proof.
  unfold spread. induction b as [|[k v] b IH] using rev_ind.
  - rewrite app_nil_r. change (Object_fromEntries []) with (∅ : gmap string A).
    by rewrite (left_id_L ∅ (∪)).
  - rewrite app_assoc, !Object_fromEntries_snoc, IH. by rewrite insert_union_l.
Qed.

(** What is stored under a key after [remove(...params)]: nothing when
    the key is the identity of a parameter and held a truthy value, and
    what was there otherwise. *)
Lemma lookup_useIndex_remove params prev k :
  useIndex_remove params prev !! k =
    match prev !! k with
    | Some stored =>
        if truthy stored && bool_decide (k ∈ id_key <$> params) then None else Some stored
    | None => None
    end.
Proof.
  unfold useIndex_remove. revert prev.
  induction params as [|data params IH]; intros prev; simpl.
  - destruct (prev !! k) as [stored|]; [|done]. by rewrite andb_false_r.
  - rewrite IH. clear IH.
    destruct (decide (k = id_key data)) as [->|Hne].
    + rewrite (bool_decide_eq_true_2 (id_key data ∈ id_key data :: _))
        by apply list_elem_of_here.
      destruct (prev !! id_key data) as [stored|] eqn:Hk; [|by rewrite Hk].
      destruct (truthy stored) eqn:Ht.
      * by rewrite lookup_delete_eq.
      * by rewrite Hk, Ht.
    + assert (Hstep : (match prev !! id_key data with
                       | Some stored =>
                           if truthy stored then delete (id_key data) prev else prev
                       | None => prev
                       end) !! k = prev !! k).
      { destruct (prev !! id_key data) as [stored|]; [|done].
        destruct (truthy stored); [|done]. by apply lookup_delete_ne. }
      rewrite Hstep. destruct (prev !! k) as [stored|]; [|done].
      destruct (truthy stored); [|done]. simpl.
      destruct (decide (k ∈ id_key <$> params)) as [Hin|Hout].
      * rewrite !bool_decide_eq_true_2; [done| |done]. by apply list_elem_of_further.
      * rewrite !bool_decide_eq_false_2; [done| |done].
        intros [?|?]%elem_of_cons; done.
Qed.
End IndexMore.

(** X1.  One [set] call with several arguments does what successive [set]
    calls with those arguments do, in the same order. *)
Theorem useIndex_set_sequential (params1 params2 : list object) (prev : Index) :
  useIndex_set (params1 ++ params2) prev
  = useIndex_set params2 (useIndex_set params1 prev).
Proof.
  unfold useIndex_set. rewrite fmap_app, Object_fromEntries_app.
  unfold spread. by rewrite (assoc_L (∪)).
Qed.

(** X2.  [set(e)] for an identity that is no key yet adds one entry: the
    Index and [array] grow by one, [e] is read back under its identity and
    every other key holds what it held. *)
Theorem useIndex_set_fresh (index : Index) (e : object) :
  index !! id_key e = None →
  size (useIndex_set [e] index) = S (size index)
  ∧ length (useIndex_array (useIndex_set [e] index)) = S (length (useIndex_array index))
  ∧ useIndex_set [e] index !! id_key e = Some (JObj e)
  ∧ (∀ k, k ≠ id_key e → useIndex_set [e] index !! k = index !! k).
Proof.
  intros Hfresh. unfold useIndex_array.
  rewrite !length_Object_values, useIndex_set_one, map_size_insert_None by done.
  repeat split; [apply lookup_insert_eq|].
  intros k Hk. by apply lookup_insert_ne.
Qed.

Lemma useIndex_set_fresh_witness :
  let index : Index := {[ "1" := JObj {[ "id" := JStr "1"; "name" := JStr "John" ]} ]} in
  let e : object := {[ "id" := JStr "2"; "name" := JStr "Jane" ]} in
  size (useIndex_set [e] index) = 2
  ∧ useIndex_set [e] index !! "2" = Some (JObj e).
Proof.
  intros index e.
  destruct (useIndex_set_fresh index e) as (Hsize & _ & Hread & _); [reflexivity|].
  split; [exact Hsize|exact Hread].
Defined.

(** X3.  [set(e)] followed by [remove(e)], for an identity that was no
    key, gives the Index back. *)
Theorem useIndex_set_then_remove (index : Index) (e : object) :
  index !! id_key e = None →
  useIndex_remove [e] (useIndex_set [e] index) = index.
Proof.
  intros Hfresh.
  rewrite useIndex_set_one, useIndex_remove_one, lookup_insert_eq. simpl.
  by rewrite delete_insert_eq, delete_id.
Qed.

Lemma useIndex_set_then_remove_witness :
  let index : Index := {[ "1" := JObj {[ "id" := JStr "1"; "name" := JStr "John" ]} ]} in
  let e : object := {[ "id" := JStr "2"; "name" := JStr "Jane" ]} in
  useIndex_remove [e] (useIndex_set [e] index) = index.
Proof.
  intros index e. apply (useIndex_set_then_remove index e). reflexivity.
Defined.

(** X4.  [remove(e)] goes by identity alone: whatever truthy value is
    stored under the identity of [e], the entry is deleted, the Index
    shrinks by one and every other key holds what it held. *)
Theorem useIndex_remove_stored (index : Index) (e : object) (stored : jsval) :
  index !! id_key e = Some stored →
  truthy stored = true →
  useIndex_remove [e] index !! id_key e = None
  ∧ S (size (useIndex_remove [e] index)) = size index
  ∧ (∀ k, k ≠ id_key e → useIndex_remove [e] index !! k = index !! k).
Proof.
  intros Hk Ht. rewrite useIndex_remove_one, Hk, Ht.
  split; [apply lookup_delete_eq|]. split.
  - rewrite map_size_delete, Hk.
    assert (size index ≠ 0); [|lia].
    apply map_size_ne_0_lookup_2 with (id_key e). by eexists.
  - intros k Hne. by apply lookup_delete_ne.
Qed.

(** The entity handed to [remove] carries the identity only. *)
Lemma useIndex_remove_stored_witness :
  let index : Index :=
    {[ "1" := JObj {[ "id" := JStr "1"; "name" := JStr "Item 1" ]};
       "2" := JObj {[ "id" := JStr "2"; "name" := JStr "Item 2" ]} ]} in
  let e : object := {[ "id" := JStr "1" ]} in
  useIndex_remove [e] index !! "1" = None
  ∧ S (size (useIndex_remove [e] index)) = 2
  ∧ useIndex_remove [e] index !! "2" = index !! "2".
Proof.
  intros index e.
  destruct (useIndex_remove_stored index e
              (JObj {[ "id" := JStr "1"; "name" := JStr "Item 1" ]}))
    as (Hgone & Hsize & Hother); [reflexivity..|].
  split; [exact Hgone|]. split; [exact Hsize|]. apply Hother. discriminate.
Defined.

(** X5.  [remove] tests [newState[id]] for truthiness, not for presence: a
    key that holds a falsy value ([null], [0], the empty string, [false])
    survives every [remove] call. *)
Theorem useIndex_remove_keeps_falsy (index : Index) (params : list object)
    (k : string) (stored : jsval) :
  index !! k = Some stored →
  truthy stored = false →
  useIndex_remove params index !! k = Some stored.
Proof. intros Hk Ht. by rewrite lookup_useIndex_remove, Hk, Ht. Qed.

Lemma useIndex_remove_keeps_falsy_witness :
  let index : Index := {[ "1" := JNull ]} in
  useIndex_remove [ {[ "id" := JStr "1" ]} ] index !! "1" = Some JNull.
Proof.
  intros index.
  apply (useIndex_remove_keeps_falsy index [ {[ "id" := JStr "1" ]} ] "1" JNull);
    reflexivity.
Defined.

(** X6.  Removal is idempotent for any list of arguments, present or not:
    a second [remove] call with the same arguments changes nothing. *)
Theorem useIndex_remove_twice (params : list object) (index : Index) :
  useIndex_remove params (useIndex_remove params index) = useIndex_remove params index.
Proof.
  apply map_eq. intros k. rewrite !lookup_useIndex_remove.
  destruct (index !! k) as [stored|]; [|done].
  destruct (truthy stored && bool_decide (k ∈ id_key <$> params)) eqn:Hdel; [done|].
  by rewrite Hdel.
Qed.

(** X7.  Entities without an [id] property are all keyed by the string
    "undefined": the later one replaces the earlier one. *)
Theorem useIndex_set_without_id (index : Index) (e1 e2 : object) :
  e1 !! "id" = None →
  e2 !! "id" = None →
  useIndex_set [e1; e2] index !! "undefined" = Some (JObj e2)
  ∧ size (useIndex_set [e1; e2] ∅) = 1.
Proof.
  intros H1 H2.
  assert (Hk1 : id_key e1 = "undefined") by (unfold id_key, get; by rewrite H1).
  assert (Hk2 : id_key e2 = "undefined") by (unfold id_key, get; by rewrite H2).
  assert (Hentries : Object_fromEntries ((λ data, (id_key data, JObj data)) <$> [e1; e2])
                     = ({[ "undefined" := JObj e2 ]} : Index)).
  { change (<[id_key e2 := JObj e2]> (<[id_key e1 := JObj e1]> (∅ : Index))
            = {[ "undefined" := JObj e2 ]}).
    by rewrite Hk1, Hk2, insert_insert_eq, insert_empty. }
  split.
  - by rewrite lookup_useIndex_set, Hentries, lookup_singleton_eq.
  - unfold useIndex_set, spread. rewrite Hentries, (right_id_L ∅ (∪)).
    apply map_size_singleton.
Qed.

Lemma useIndex_set_without_id_witness :
  let e1 : object := {[ "name" := JStr "John" ]} in
  let e2 : object := {[ "name" := JStr "Jane" ]} in
  useIndex_set [e1; e2] ∅ !! "undefined" = Some (JObj e2)
  ∧ size (useIndex_set [e1; e2] ∅) = 1.
Proof.
  intros e1 e2. apply (useIndex_set_without_id ∅ e1 e2); reflexivity.
Defined.

(** ** The guards: mount effect, callbacks, release *)

(** X8.  Without [autoTrigger] the mount effect of [useAction] does
    nothing.  With it the action is invoked once, with the rest object of
    the options spread under the initial defaults: every default reaches
    the payload, and so does, under the key [defaults], the object of the
    defaults itself unless they have a key of that name. *)
Theorem useAction_autoTrigger {R E : Type}
    (action : object → Async E R) (onSuccess : option (R → Async E unit))
    (defaults : option object) :
  useAction_mount action onSuccess false defaults = []
  ∧ ∃ payload,
      invocations (useAction_mount action onSuccess true defaults) = [payload]
      ∧ (defaults = None → payload = ∅)
      ∧ (∀ D, defaults = Some D →
           (∀ k d, D !! k = Some d → payload !! k = Some d)
           ∧ (D !! "defaults" = None → payload !! "defaults" = Some (JObj D))
           ∧ (∀ k, k ≠ "defaults" → D !! k = None → payload !! k = None)).
Proof.
  split; [done|].
  exists (spread (useAction_rest_props defaults) (useAction_initial_defaults defaults)).
  split; [apply useAction_trigger_invocations|]. split.
  - intros ->. apply map_eq. intros k. by rewrite lookup_spread.
  - intros D ->. simpl. repeat split.
    + intros k d Hk. by rewrite lookup_spread, Hk.
    + intros Hk. by rewrite lookup_spread, Hk, lookup_singleton_eq.
    + intros k Hne Hk. by rewrite lookup_spread, Hk, lookup_singleton_ne.
Qed.

(** The options of hooks.test.ts, "should auto-trigger when autoTrigger is
    true". *)
Lemma useAction_autoTrigger_witness :
  let mockAction : object → Async unit jsval := λ _, ([], Fulfilled (JStr "auto-triggered")) in
  let defaults : object := {[ "param" := JStr "test" ]} in
  ∃ payload,
    invocations (useAction_mount mockAction None true (Some defaults)) = [payload]
    ∧ payload !! "param" = Some (JStr "test")
    ∧ payload !! "defaults" = Some (JObj defaults).
Proof.
  intros mockAction defaults.
  destruct (useAction_autoTrigger mockAction None (Some defaults))
    as (_ & payload & Hinv & _ & Hsome).
  destruct (Hsome defaults eq_refl) as (Hdefault & Hrest & _).
  exists payload. split; [exact Hinv|]. split.
  - apply Hdefault. reflexivity.
  - apply Hrest. reflexivity.
Defined.

(** X9.  Once the wrapped method has settled, either way, [useMethod]'s
    guard is released: [loading] is off, and the [trigger] of the next
    render invokes the method again, with the props it is given. *)
Theorem useMethod_trigger_releases {P R E : Type}
    (method : P → Async E R) (props next_props : P) (st : GuardState R) :
  (method props).2 ≠ Pending →
  loading (guard_after (useMethod_trigger method false props).1 st) = false
  ∧ invocations
      (useMethod_trigger method
         (loading (guard_after (useMethod_trigger method false props).1 st))
         next_props).1
    = [next_props].
Proof.
  intros Hsettled.
  assert (Hoff : loading (guard_after (useMethod_trigger method false props).1 st) = false).
  { destruct (method props) as [inner settled] eqn:Hm.
    rewrite (useMethod_trigger_proceeds _ _ _ _ Hm).
    destruct settled; [| |done]; cbn [fst];
      by rewrite !guard_after_app, guard_after_inner. }
  split; [exact Hoff|]. rewrite Hoff.
  destruct (method next_props) as [inner settled] eqn:Hm.
  rewrite (useMethod_trigger_proceeds _ _ _ _ Hm).
  destruct settled; cbn [fst]; rewrite ?invocations_app, invocations_inner; simpl;
    by rewrite ?invocations_inner.
Qed.

Lemma useMethod_trigger_releases_witness :
  let failing : object → Async unit jsval := λ _, ([], Rejected (Error "Network error")) in
  let st := guard_after (useMethod_trigger failing false ∅).1 useMethod_init in
  loading st = false
  ∧ invocations (useMethod_trigger failing (loading st) {[ "id" := JStr "1" ]}).1
    = [ {[ "id" := JStr "1" ]} ].
Proof.
  intros failing st.
  apply (useMethod_trigger_releases failing ∅ {[ "id" := JStr "1" ]} useMethod_init).
  discriminate.
Defined.

(** [useAction]'s guard is released as well, whatever the action and
    the [onSuccess] callback did, as long as they completed. *)
Theorem useAction_trigger_releases {R E : Type}
    (action : object → Async E R) (onSuccess : option (R → Async E unit))
    (defaults props : object) (st : GuardState R) :
  (action (spread props defaults)).2 ≠ Pending →
  (∀ callback data, onSuccess = Some callback → (callback data).2 ≠ Pending) →
  loading (guard_after (useAction_trigger action onSuccess false defaults props).1 st)
  = false.
Proof.
  intros Hsettled Hcallback.
  destruct (action (spread props defaults)) as [inner settled] eqn:Ha.
  rewrite (useAction_trigger_proceeds _ _ _ _ _ _ Ha). cbn zeta.
  destruct settled as [data|err|]; [| |done].
  - destruct onSuccess as [callback|].
    + specialize (Hcallback callback data eq_refl).
      destruct (callback data) as [t' [[]|err|]]; [| |done]; cbn [fst];
        by rewrite !guard_after_app, !guard_after_inner.
    + cbn [fst]. by rewrite !guard_after_app, !guard_after_inner.
  - cbn [fst]. by rewrite !guard_after_app, !guard_after_inner.
Qed.

Lemma useAction_trigger_releases_witness :
  let mockAction : object → Async unit jsval := λ _, ([], Fulfilled (JStr "success")) in
  let onSuccess : jsval → Async unit unit := λ _, ([tt], Fulfilled tt) in
  loading (guard_after (useAction_trigger mockAction (Some onSuccess) false ∅ ∅).1
             useAction_init)
  = false.
Proof.
  intros mockAction onSuccess.
  apply (useAction_trigger_releases mockAction (Some onSuccess) ∅ ∅ useAction_init).
  - discriminate.
  - intros callback data [= <-]. discriminate.
Defined.

(** X10.  [onSuccess] runs only after a fulfilled action, once, with the
    result, and after the action's own effects: a rejected or pending
    action never reaches it. *)
Theorem useAction_onSuccess_only_on_success {R E : Type}
    (action : object → Async E R) (callback : R → Async E unit)
    (defaults props : object) (inner : list E) (settled : Promise R) :
  action (spread props defaults) = (inner, settled) →
  inner_events (useAction_trigger action (Some callback) false defaults props).1
  = inner ++ match settled with
             | Fulfilled data => (callback data).1
             | _ => []
             end.
Proof.
  intros Ha. rewrite (useAction_trigger_proceeds _ _ _ _ _ _ Ha). cbn zeta.
  destruct settled as [data|err|]; [destruct (callback data) as [t' [[]|err|]]|..];
    cbn [fst]; rewrite ?inner_events_app, ?inner_events_inner; simpl;
    by rewrite ?inner_events_inner, ?app_nil_r.
Qed.

(** The callback of hooks.test.ts, "should handle successful action
    execution", recorded as the value it is called with. *)
Lemma useAction_onSuccess_only_on_success_witness :
  let mockAction : object → Async jsval jsval := λ _, ([], Fulfilled (JStr "success")) in
  let onSuccess : jsval → Async jsval unit := λ result, ([result], Fulfilled tt) in
  inner_events (useAction_trigger mockAction (Some onSuccess) false ∅ ∅).1
  = [JStr "success"].
Proof.
  intros mockAction onSuccess.
  apply (useAction_onSuccess_only_on_success mockAction onSuccess ∅ ∅ []
           (Fulfilled (JStr "success"))).
  reflexivity.
Defined.

(** X11.  When [onSuccess] throws after a fulfilled action, the result is
    already stored; the exception is caught like a failure of the action:
    it becomes [error], and [trigger] resolves with [undefined] instead of
    the result. *)
Theorem useAction_onSuccess_throws {R E : Type}
    (action : object → Async E R) (callback : R → Async E unit)
    (defaults props : object) (inner inner' : list E) (data : R) (exn : jsval)
    (st : GuardState R) :
  action (spread props defaults) = (inner, Fulfilled data) →
  callback data = (inner', Rejected exn) →
  (useAction_trigger action (Some callback) false defaults props).2 = Fulfilled None
  ∧ guard_after (useAction_trigger action (Some callback) false defaults props).1 st
    = mkGuard false exn (Some data).
Proof.
  intros Ha Hc. rewrite (useAction_trigger_proceeds _ _ _ _ _ _ Ha). cbn zeta.
  rewrite Hc. cbn [fst snd]. split; [done|].
  by rewrite !guard_after_app, !guard_after_inner.
Qed.

Lemma useAction_onSuccess_throws_witness :
  let mockAction : object → Async unit jsval := λ _, ([], Fulfilled (JStr "success")) in
  let onSuccess : jsval → Async unit unit := λ _, ([], Rejected (Error "callback failed")) in
  (useAction_trigger mockAction (Some onSuccess) false ∅ ∅).2 = Fulfilled None
  ∧ guard_after (useAction_trigger mockAction (Some onSuccess) false ∅ ∅).1 useAction_init
    = mkGuard false (Error "callback failed") (Some (JStr "success")).
Proof.
  intros mockAction onSuccess.
  apply (useAction_onSuccess_throws mockAction onSuccess ∅ ∅ [] [] (JStr "success")
           (Error "callback failed") useAction_init); reflexivity.
Defined.

(** A [create] that the backend rejects. *)
Lemma useMethod_trigger_reraises_witness :
  let error := Error "Network error" in
  let method : object → Async unit jsval := λ _, ([], Rejected error) in
  let st := mkGuard false JNull (Some (JStr "earlier")) in
  (useMethod_trigger method (loading st) ∅).2 = Rejected error
  ∧ guard_after (useMethod_trigger method (loading st) ∅).1 st
    = mkGuard false error (Some (JStr "earlier")).
Proof.
  intros error method st.
  destruct (useMethod_trigger_reraises method ∅ [] error st eq_refl) as [Hout Hst].
  split; [exact Hout|]. apply Hst. reflexivity.
Defined.

(** A call that succeeds after one that failed. *)
Lemma useMethod_trigger_clears_error_witness :
  let method : object → Async unit jsval := λ _, ([], Fulfilled (JStr "success")) in
  let st := mkGuard false (Error "Network error") None in
  (useMethod_trigger method false ∅).2 = Fulfilled (Some (JStr "success"))
  ∧ guard_after (useMethod_trigger method false ∅).1 st
    = mkGuard false JNull (Some (JStr "success")).
Proof.
  intros method st.
  destruct (useMethod_trigger_clears_error method ∅ [] (JStr "success") st eq_refl)
    as (_ & Hout & Hst).
  split; [exact Hout|exact Hst].
Defined.

(** A call whose method has not settled yet. *)
Lemma useMethod_trigger_in_flight_witness :
  let method : object → Async unit jsval := λ _, ([], Pending) in
  let st := mkGuard false (Error "Network error") (Some (JStr "earlier")) in
  (useMethod_trigger method false ∅).2 = Pending
  ∧ guard_after (useMethod_trigger method false ∅).1 st
    = mkGuard true JNull (Some (JStr "earlier")).
Proof.
  intros method st.
  destruct (useMethod_trigger_in_flight method ∅ [] st eq_refl) as (Hout & Hst & _).
  split; [exact Hout|exact Hst].
Defined.

(** ** The table layer: what each operation does to the Index *)

Section TableMore.
Variable methods : CRUD.
Variable table : string.
Implicit Types (op : CrudOp) (props : object) (index : Index) (result : jsval).

(** The wrapped methods other than [list], after a fulfilled backend
    call. *)
Lemma table_method_fulfilled op props result :
  op ≠ OpList →
  methods op (<["table" := JStr table]> props) = Fulfilled result →
  table_method methods table op props
  = (BackendCall op (<["table" := JStr table]> props)
       :: match result with
          | JObj entity =>
              if truthy (get entity "id")
              then match op with
                   | OpCreate | OpUpdate => [IndexSet [entity]]
                   | OpRemove => [IndexRemove [entity]]
                   | _ => []
                   end
              else []
          | _ => []
          end,
     Fulfilled result).
Proof.
  intros Hop Hm.
  destruct op; try done;
    unfold table_method, createWithIndex, updateWithIndex, removeWithIndex, backend,
      mbind, Async_bind; simpl; rewrite Hm; simpl;
    try (destruct result as [| | | | |entity|]; simpl; try done;
         by destruct (truthy (get entity "id"))).
Qed.

Lemma table_trigger_outcome op props inner settled :
  table_method methods table op props = (inner, settled) →
  (table_trigger methods table op false props).2
  = match settled with
    | Fulfilled result => Fulfilled (Some result)
    | Rejected reason => Rejected reason
    | Pending => Pending
    end.
Proof.
  intros Hm. unfold table_trigger. rewrite (useMethod_trigger_proceeds _ _ _ _ Hm).
  by destruct settled.
Qed.

Lemma list_entries_nullish (items : list jsval) :
  JUndefined ∈ items ∨ JNull ∈ items → list_entries items = None.
Proof.
  unfold list_entries. induction items as [|item items IH]; simpl.
  - intros [H|H]; by apply not_elem_of_nil in H.
  - rewrite !elem_of_cons. intros [[<-|H]|[<-|H]]; try done;
      (destruct (member item "id"); simpl; [|done]); rewrite IH; auto.
Qed.
End TableMore.

(** X14.  [create] and [update] reconcile alike: when the backend resolves
    with an object carrying a truthy [id], that object is stored under
    its identity (inserted if the identity was unknown, also by [update]),
    nothing else changes, and [trigger] resolves with the object. *)
Theorem table_upsert_on_success (methods : CRUD) (table : string) (op : CrudOp)
    (props : object) (index : Index) (entity : object) :
  op = OpCreate ∨ op = OpUpdate →
  methods op (<["table" := JStr table]> props) = Fulfilled (JObj entity) →
  truthy (get entity "id") = true →
  index_after (inner_events (table_trigger methods table op false props).1) index
  = <[id_key entity := JObj entity]> index
  ∧ (table_trigger methods table op false props).2 = Fulfilled (Some (JObj entity)).
Proof.
  intros Hop Hm Hid.
  assert (Hmethod : table_method methods table op props
                    = ([BackendCall op (<["table" := JStr table]> props); IndexSet [entity]],
                       Fulfilled (JObj entity))).
  { rewrite (table_method_fulfilled methods table op props (JObj entity));
      [|by destruct Hop as [-> | ->]|done].
    rewrite Hid. by destruct Hop as [-> | ->]. }
  rewrite table_trigger_inner, (table_trigger_outcome _ _ _ _ _ _ Hmethod), Hmethod.
  split; [|done]. apply useIndex_set_one.
Qed.

(** An [update] for an identity the Index does not hold yet. *)
Lemma table_upsert_on_success_witness :
  let robert : object := {[ "id" := JStr "3"; "name" := JStr "Robert" ]} in
  let methods : CRUD := λ _ _, Fulfilled (JObj robert) in
  let props : object := {[ "id" := JStr "3"; "data" := JObj {[ "name" := JStr "Robert" ]} ]} in
  index_after (inner_events (table_trigger methods "users" OpUpdate false props).1) ∅
  = {[ "3" := JObj robert ]}.
Proof.
  intros robert methods props.
  destruct (table_upsert_on_success methods "users" OpUpdate props ∅ robert) as [Hindex _];
    [by right|reflexivity..|].
  exact Hindex.
Defined.

(** X15.  [remove] reconciles by the identity of the entity the backend
    resolved with, whatever the caller passed: the entry under that
    identity is deleted and every other key holds what it held. *)
Theorem table_remove_on_success (methods : CRUD) (table : string)
    (props : object) (index : Index) (entity : object) (stored : jsval) :
  methods OpRemove (<["table" := JStr table]> props) = Fulfilled (JObj entity) →
  truthy (get entity "id") = true →
  index !! id_key entity = Some stored →
  truthy stored = true →
  index_after (inner_events (table_trigger methods table OpRemove false props).1) index
  = delete (id_key entity) index
  ∧ (table_trigger methods table OpRemove false props).2 = Fulfilled (Some (JObj entity)).
Proof.
  intros Hm Hid Hk Ht.
  assert (Hmethod : table_method methods table OpRemove props
                    = ([BackendCall OpRemove (<["table" := JStr table]> props);
                        IndexRemove [entity]],
                       Fulfilled (JObj entity))).
  { rewrite (table_method_fulfilled methods table OpRemove props (JObj entity)) by done.
    by rewrite Hid. }
  rewrite table_trigger_inner, (table_trigger_outcome _ _ _ _ _ _ Hmethod), Hmethod.
  split; [|done]. simpl. change (useIndex_remove [entity] index = delete (id_key entity) index).
  by rewrite useIndex_remove_one, Hk, Ht.
Qed.

Lemma table_remove_on_success_witness :
  let john : object := {[ "id" := JStr "1"; "name" := JStr "John" ]} in
  let methods : CRUD := λ _ _, Fulfilled (JObj john) in
  let index : Index := {[ "1" := JObj john ]} in
  index_after
    (inner_events (table_trigger methods "users" OpRemove false {[ "id" := JStr "1" ]}).1)
    index
  = delete "1" index.
Proof.
  intros john methods index.
  destruct (table_remove_on_success methods "users" {[ "id" := JStr "1" ]} index john
              (JObj john)) as [Hindex _]; [reflexivity..|].
  exact Hindex.
Defined.

(** X16.  When the backend of [create], [update] or [remove] resolves with
    something that carries no truthy [id] ([null], a primitive, an array,
    an object whose [id] is missing, empty or zero), the Index is left as
    it is, and [trigger] still resolves with that value. *)
Theorem table_result_without_id (methods : CRUD) (table : string) (op : CrudOp)
    (props : object) (index : Index) (result : jsval) :
  op ≠ OpList →
  methods op (<["table" := JStr table]> props) = Fulfilled result →
  (∀ entity, result = JObj entity → truthy (get entity "id") = false) →
  index_after (inner_events (table_trigger methods table op false props).1) index = index
  ∧ (table_trigger methods table op false props).2 = Fulfilled (Some result).
Proof.
  intros Hop Hm Hid.
  assert (Hmethod : table_method methods table op props
                    = ([BackendCall op (<["table" := JStr table]> props)], Fulfilled result)).
  { rewrite (table_method_fulfilled methods table op props result) by done.
    destruct result as [| | | | |entity|]; try done. by rewrite (Hid entity). }
  by rewrite table_trigger_inner, (table_trigger_outcome _ _ _ _ _ _ Hmethod), Hmethod.
Qed.

(** A [create] whose backend answers with an entity that has an empty
    [id]. *)
Lemma table_result_without_id_witness :
  let draft := JObj {[ "id" := JStr ""; "name" := JStr "Bob" ]} in
  let methods : CRUD := λ _ _, Fulfilled draft in
  let index : Index := {[ "1" := JObj {[ "id" := JStr "1" ]} ]} in
  index_after (inner_events (table_trigger methods "users" OpCreate false ∅).1) index = index
  ∧ (table_trigger methods "users" OpCreate false ∅).2 = Fulfilled (Some draft).
Proof.
  intros draft methods index.
  apply (table_result_without_id methods "users" OpCreate ∅ index draft).
  - discriminate.
  - reflexivity.
  - intros entity [= <-]. reflexivity.
Defined.

(** X17.  [find] never touches the Index, however the backend call ends
    and whether or not the call is dropped; a proceeding call ends as the
    backend call does. *)
Theorem table_find_leaves_index (methods : CRUD) (table : string) (loading : bool)
    (props : object) (index : Index) :
  index_after (inner_events (table_trigger methods table OpFind loading props).1) index
  = index
  ∧ (table_trigger methods table OpFind false props).2
    = match methods OpFind (<["table" := JStr table]> props) with
      | Fulfilled found => Fulfilled (Some found)
      | Rejected reason => Rejected reason
      | Pending => Pending
      end.
Proof.
  split.
  - destruct loading; [done|]. by rewrite table_trigger_inner.
  - by rewrite (table_trigger_outcome methods table OpFind props
                  [BackendCall OpFind (<["table" := JStr table]> props)]
                  (methods OpFind (<["table" := JStr table]> props))).
Qed.

(** When the backend of [list] resolves with something that is not
    an array, the Index is not replaced, and [trigger] resolves with that
    value. *)
Theorem table_list_not_an_array (methods : CRUD) (table : string)
    (props : object) (index : Index) (result : jsval) :
  methods OpList (<["table" := JStr table]> props) = Fulfilled result →
  (∀ items, result ≠ JArr items) →
  index_after (inner_events (table_trigger methods table OpList false props).1) index = index
  ∧ (table_trigger methods table OpList false props).2 = Fulfilled (Some result).
Proof.
  intros Hm Harr.
  assert (Hmethod : table_method methods table OpList props
                    = ([BackendCall OpList (<["table" := JStr table]> props)],
                       Fulfilled result)).
  { unfold table_method, listWithIndex, backend, mbind, Async_bind. simpl. rewrite Hm.
    destruct result as [| | | | | |items]; try done. by destruct (Harr items). }
  by rewrite table_trigger_inner, (table_trigger_outcome _ _ _ _ _ _ Hmethod), Hmethod.
Qed.

Lemma table_list_not_an_array_witness :
  let methods : CRUD := λ _ _, Fulfilled JNull in
  let index : Index := {[ "1" := JObj {[ "id" := JStr "1" ]} ]} in
  index_after (inner_events (table_trigger methods "users" OpList false ∅).1) index = index
  ∧ (table_trigger methods "users" OpList false ∅).2 = Fulfilled (Some JNull).
Proof.
  intros methods index.
  apply (table_list_not_an_array methods "users" ∅ index JNull); [reflexivity|].
  intros items. discriminate.
Defined.

(** X18.  When the array [list] resolved with holds a [null] or
    [undefined] item, reading its [id] throws: the Index is not replaced,
    the exception is recorded as the guard's [error] and [trigger] is
    rejected with it. *)
Theorem table_list_nullish_item (methods : CRUD) (table : string)
    (props : object) (index : Index) (items : list jsval) (st : GuardState jsval) :
  methods OpList (<["table" := JStr table]> props) = Fulfilled (JArr items) →
  JUndefined ∈ items ∨ JNull ∈ items →
  index_after (inner_events (table_trigger methods table OpList false props).1) index = index
  ∧ (table_trigger methods table OpList false props).2 = Rejected TypeError
  ∧ guard_after (table_trigger methods table OpList false props).1 st
    = mkGuard false TypeError (result st).
Proof.
  intros Hm Hnull.
  assert (Hmethod : table_method methods table OpList props
                    = ([BackendCall OpList (<["table" := JStr table]> props)],
                       Rejected TypeError)).
  { unfold table_method, listWithIndex, backend, mbind, Async_bind. simpl. rewrite Hm.
    simpl. by rewrite (list_entries_nullish items Hnull). }
  rewrite table_trigger_inner, (table_trigger_outcome _ _ _ _ _ _ Hmethod), Hmethod.
  split; [done|]. split; [done|].
  unfold table_trigger.
  by destruct (useMethod_trigger_failure (table_method methods table OpList) props _ _ st
                 Hmethod) as (_ & -> & _).
Qed.

Lemma table_list_nullish_item_witness :
  let items := [JObj {[ "id" := JStr "2" ]}; JNull] in
  let methods : CRUD := λ _ _, Fulfilled (JArr items) in
  let index : Index := {[ "1" := JObj {[ "id" := JStr "1" ]} ]} in
  index_after (inner_events (table_trigger methods "users" OpList false ∅).1) index = index
  ∧ (table_trigger methods "users" OpList false ∅).2 = Rejected TypeError.
Proof.
  intros items methods index.
  destruct (table_list_nullish_item methods "users" ∅ index items useMethod_init)
    as (Hindex & Hout & _).
  - reflexivity.
  - right. apply list_elem_of_further, list_elem_of_here.
  - split; [exact Hindex|exact Hout].
Defined.

(** X19.  Every guarded operation of a table handle keeps the Index keyed
    by identity, whatever the backend answers. *)
Theorem table_trigger_keeps_keyed (methods : CRUD) (table : string) (op : CrudOp)
    (loading : bool) (props : object) (index : Index) :
  keyed_by_identity index →
  keyed_by_identity
    (index_after (inner_events (table_trigger methods table op loading props).1) index).
Proof.
  intros Hkeyed. destruct loading; [done|].
  rewrite table_trigger_inner. by apply table_method_keeps_keyed.
Qed.

Lemma table_trigger_keeps_keyed_witness :
  let methods : CRUD :=
    λ _ _, Fulfilled (JArr [JObj {[ "id" := JStr "2" ]}; JObj {[ "id" := JNum 7 ]}]) in
  keyed_by_identity
    (index_after (inner_events (table_trigger methods "users" OpList false ∅).1) ∅).
Proof.
  intros methods.
  apply (table_trigger_keeps_keyed methods "users" OpList false ∅ ∅).
  apply map_Forall_empty.
Defined.

(** ** The single-entity provider *)

(** X20.  What [useSingleProvider] does on mount.  When [index[id]] is
    truthy (a truthy entry of the Index, or, for an [id] such as
    [constructor], a member inherited from [Object.prototype]) it is
    published as it is and nothing is triggered.  When [index[id]] is
    falsy, [find] is triggered: if the [find] guard is loading the call is
    dropped, the backend is not called and [single] becomes [undefined];
    otherwise the backend's [find] is called once with [{ id, table }], and
    [single] becomes what it resolved with, or stays what it was while the
    call is pending or when it fails.  The Index is never updated. *)
Theorem useSingleProvider_resolves (methods : CRUD) (table : string)
    (find_loading : bool) (index : Index) (id : string) :
  (Property_truthy (Object_get index id) = true →
     useSingleProvider methods table find_loading index id = ([], Object_get index id))
  ∧ (Property_truthy (Object_get index id) = false →
     backend_calls
       (inner_events (useSingleProvider methods table find_loading index id).1)
     = (if find_loading then []
        else [(OpFind, {[ "table" := JStr table; "id" := JStr id ]})])
     ∧ index_after
         (inner_events (useSingleProvider methods table find_loading index id).1) index
       = index
     ∧ (useSingleProvider methods table find_loading index id).2
       = (if find_loading then Data JUndefined
          else match methods OpFind {[ "table" := JStr table; "id" := JStr id ]} with
               | Fulfilled found => Data found
               | _ => Object_get index id
               end)).
Proof.
  split.
  - intros Ht. unfold useSingleProvider. by rewrite Ht.
  - intros Hf. unfold useSingleProvider. rewrite Hf.
    destruct find_loading; [done|].
    assert (Hmethod : table_method methods table OpFind {[ "id" := JStr id ]}
                      = ([BackendCall OpFind {[ "table" := JStr table; "id" := JStr id ]}],
                         methods OpFind {[ "table" := JStr table; "id" := JStr id ]})) by done.
    pose proof (table_trigger_inner methods table OpFind {[ "id" := JStr id ]}) as Hinner.
    pose proof (table_trigger_outcome methods table OpFind _ _ _ Hmethod) as Hout.
    rewrite Hmethod in Hinner.
    destruct (table_trigger methods table OpFind false {[ "id" := JStr id ]})
      as [t outcome]. simpl in Hinner, Hout. subst outcome.
    destruct (methods OpFind _) as [found| |]; simpl; by rewrite Hinner.
Qed.

(** A backend that finds the user, for an empty Index, for an Index that
    holds the user, and for the identity [constructor]. *)
Lemma useSingleProvider_resolves_witness :
  let john := JObj {[ "id" := JStr "1"; "name" := JStr "John" ]} in
  let methods : CRUD := λ _ _, Fulfilled john in
  (useSingleProvider methods "users" false ∅ "1").2 = Data john
  ∧ SingleProvider_renders (useSingleProvider methods "users" false ∅ "1").2 = true
  ∧ (useSingleProvider methods "users" true ∅ "1").2 = Data JUndefined
  ∧ useSingleProvider methods "users" false {[ "1" := john ]} "1" = ([], Data john)
  ∧ useSingleProvider methods "users" false ∅ "constructor" = ([], Inherited "constructor").
Proof.
  intros john methods.
  destruct (useSingleProvider_resolves methods "users" false ∅ "1") as [_ Habsent].
  destruct (Habsent eq_refl) as (_ & _ & Hsingle).
  destruct (useSingleProvider_resolves methods "users" true ∅ "1") as [_ Hloading].
  destruct (Hloading eq_refl) as (_ & _ & Hdropped).
  destruct (useSingleProvider_resolves methods "users" false {[ "1" := john ]} "1")
    as [Hcached _].
  destruct (useSingleProvider_resolves methods "users" false ∅ "constructor")
    as [Hinherited _].
  split; [exact Hsingle|]. split; [by rewrite Hsingle|]. split; [exact Hdropped|].
  split; [apply Hcached|apply Hinherited]; reflexivity.
Defined.

(** ** Scoped injection: nesting *)

Lemma React_useContext_app {V} (Context : ContextId) (default_value : V)
    (inner outer : Scope V) :
  Context ∉ inner.*1 →
  React_useContext Context default_value (inner ++ outer)
  = React_useContext Context default_value outer.
Proof.
  induction inner as [|[c v] inner IH]; [done|]. simpl.
  intros Hc. destruct (decide (c = Context)) as [->|_].
  - destruct Hc. apply list_elem_of_here.
  - apply IH. intros Hin. apply Hc. by apply list_elem_of_further.
Qed.

(** X21.  The accessor of a binding returns the value of the nearest
    provider of that binding: providers of other bindings in between are
    passed over, and providers of the same binding further out are
    shadowed. *)
Theorem createContextFromHook_nearest_provider {V Props : Type} (Context : ContextId)
    (useHook : Props → V) (props : Props) (inner outer : Scope (option V)) :
  Context ∉ inner.*1 →
  (createContextFromHook Context useHook).2
    (inner ++ (createContextFromHook Context useHook).1 props outer)
  = Return (Some (useHook props)).
Proof.
  intros Hc. simpl. rewrite React_useContext_app by done.
  simpl. by rewrite decide_True.
Qed.

(** The accessor of binding 1 below a provider of binding 2, a provider
    of binding 1 and, outermost, another provider of binding 1. *)
Lemma createContextFromHook_nearest_provider_witness :
  let useTestHook : string → jsval := λ initialValue, JStr initialValue in
  let binding := createContextFromHook 1%positive useTestHook in
  let other := createContextFromHook 2%positive useTestHook in
  binding.2 (other.1 "other" (binding.1 "near" (binding.1 "far" [])))
  = Return (Some (JStr "near")).
Proof.
  intros useTestHook binding other.
  apply (createContextFromHook_nearest_provider 1%positive useTestHook "near"
           [(2%positive, Some (JStr "other"))] (binding.1 "far" [])).
  apply (bool_decide_unpack _). vm_compute. exact I.
Defined.

(** X22.  [useFields] and [useForm], called where no provider of their
    context encloses the caller, whatever other providers do, throw the
    error that names the missing provider. *)
Theorem accessors_throw_outside_provider {V : Type} (Context : ContextId)
    (scope : Scope (option V)) :
  Context ∉ scope.*1 →
  useFields Context scope = Throw (Error "useFields must be used within a FieldsProvider")
  ∧ useForm Context scope = Throw (Error "useForm must be used within a FormProvider").
Proof.
  intros Hc. unfold useFields, useForm, checked_accessor.
  by rewrite React_useContext_unbound.
Qed.

Lemma accessors_throw_outside_provider_witness :
  useFields (V := jsval) 1%positive [(2%positive, Some JNull)]
  = Throw (Error "useFields must be used within a FieldsProvider")
  ∧ useForm (V := jsval) 1%positive [(2%positive, Some JNull)]
    = Throw (Error "useForm must be used within a FormProvider").
Proof.
  apply (accessors_throw_outside_provider 1%positive [(2%positive, Some JNull)]).
  apply (bool_decide_unpack _). vm_compute. exact I.
Defined.

(** Below a [DatabaseProvider], [useTable(name)] is the handle that
    was passed to the nearest one as the prop [name], and [undefined] for
    a name that was not passed. *)
Theorem useTable_within_provider {H : Type} (Context : ContextId)
    (tables : gmap string H) (name : string) (inner outer : Scope (option (gmap string H))) :
  Context ∉ inner.*1 →
  useTable Context name
    (inner ++ (createContextFromHook Context useDatabaseProvider).1 tables outer)
  = Return (tables !! name).
Proof.
  intros Hc. unfold useTable. simpl. rewrite React_useContext_app by done.
  simpl. by rewrite decide_True.
Qed.

(** The handles of crud.test.tsx: [users] and [posts] are passed, [tags]
    is not. *)
Lemma useTable_within_provider_witness :
  let tables : gmap string string := {[ "users" := "users handle"; "posts" := "posts handle" ]} in
  let scope := (createContextFromHook 1%positive useDatabaseProvider).1 tables [] in
  useTable 1%positive "users" scope = Return (Some "users handle")
  ∧ useTable 1%positive "tags" scope = Return None.
Proof.
  intros tables scope. split.
  - apply (useTable_within_provider 1%positive tables "users" [] []).
    apply not_elem_of_nil.
  - apply (useTable_within_provider 1%positive tables "tags" [] []).
    apply not_elem_of_nil.
Defined.

(** ** Fields *)

(** X23.  After [setField(name, value)], [register(name)] hands the input
    that value, or the empty string when the value is [null] or
    [undefined]; the registration of every other field is unchanged; and
    the value [register] hands out is never [null] or [undefined]. *)
Theorem setField_then_register (fields : object) (name : string) (value : jsval) :
  reg_value (useFieldsProvider_register (useFieldsProvider_setField name value fields) name)
  = nullish_coalescing value (JStr "")
  ∧ (∀ other, other ≠ name →
       useFieldsProvider_register (useFieldsProvider_setField name value fields) other
       = useFieldsProvider_register fields other)
  ∧ (∀ any, reg_value (useFieldsProvider_register fields any) ≠ JUndefined
            ∧ reg_value (useFieldsProvider_register fields any) ≠ JNull).
Proof.
  unfold useFieldsProvider_register, useFieldsProvider_setField, get. simpl.
  split; [by rewrite lookup_insert_eq|]. split.
  - intros other Hne. by rewrite lookup_insert_ne.
  - intros any. by destruct (default JUndefined (fields !! any)).
Qed.

(** The fields of fields.test.tsx, "should handle setField updates", and a
    field reset to [null]. *)
Lemma setField_then_register_witness :
  let fields : object := {[ "name" := JStr "Initial"; "email" := JStr "" ]} in
  reg_value (useFieldsProvider_register
               (useFieldsProvider_setField "name" (JStr "Updated Name") fields) "name")
  = JStr "Updated Name"
  ∧ reg_value (useFieldsProvider_register
                 (useFieldsProvider_setField "name" JNull fields) "name")
    = JStr "".
Proof.
  intros fields. split.
  - apply (setField_then_register fields "name" (JStr "Updated Name")).
  - apply (setField_then_register fields "name" JNull).
Defined.

(** X24.  The change handler that [register] returns writes under the name
    of the element that fired the event, whichever field it was registered
    for: the value typed is then what [register] hands to that element,
    and no other field changes. *)
Theorem handleChange_by_event_name (fields : object) (registered : string)
    (e : ChangeEvent) :
  reg_value (useFieldsProvider_register
               (reg_onChange (useFieldsProvider_register fields registered) e fields)
               (target_name e))
  = JStr (target_value e)
  ∧ (∀ other, other ≠ target_name e →
       reg_onChange (useFieldsProvider_register fields registered) e fields !! other
       = fields !! other).
Proof.
  unfold useFieldsProvider_register, handleChange, get. simpl.
  rewrite lookup_insert_eq. split; [done|].
  intros other Hne. by rewrite lookup_insert_ne.
Qed.

(** The handler registered for [name] receives an event of the element
    named [email]. *)
Lemma handleChange_by_event_name_witness :
  let fields : object := {[ "name" := JStr ""; "email" := JStr "" ]} in
  let typed := mkChange "email" "john@example.com" in
  let fields' := reg_onChange (useFieldsProvider_register fields "name") typed fields in
  fields' !! "email" = Some (JStr "john@example.com")
  ∧ fields' !! "name" = Some (JStr "").
Proof.
  intros fields typed fields'.
  destruct (handleChange_by_event_name fields "name" typed) as [_ Hother].
  split; [reflexivity|]. unfold fields'. rewrite Hother; [reflexivity|discriminate].
Defined.

(** ** Forms *)

(** X25.  A [FormProvider] with no [FieldsProvider] around it fails to
    render with the error of [useFields].  Below a [FieldsProvider] it
    renders, and in its children [useForm] returns the form built from
    the nearest fields while [useFields] still returns those fields. *)
Theorem FormProvider_needs_fields {V : Type} (FieldsContext FormReactContext : ContextId)
    (useFormHook : V → V) (scope : Scope (option V)) :
  FieldsContext ≠ FormReactContext →
  (FieldsContext ∉ scope.*1 →
   FormProvider FieldsContext FormReactContext useFormHook scope
   = Throw (Error "useFields must be used within a FieldsProvider"))
  ∧ (∀ fields,
       ∃ children,
         FormProvider FieldsContext FormReactContext useFormHook
           (Context_Provider FieldsContext fields scope) = Return children
         ∧ useForm FormReactContext children = Return (useFormHook fields)
         ∧ useFields FieldsContext children = Return fields).
Proof.
  intros Hne. split.
  - intros Hc. unfold FormProvider, useFields, checked_accessor.
    by rewrite React_useContext_unbound.
  - intros fields. eexists. unfold FormProvider, useFields, useForm, checked_accessor.
    simpl. rewrite !decide_True by done. split; [done|].
    simpl. rewrite decide_True by done. split; [done|].
    by rewrite decide_False, decide_True.
Qed.

Lemma FormProvider_needs_fields_witness :
  FormProvider (V := jsval) 1%positive 2%positive (λ fields, JArr [fields]) []
  = Throw (Error "useFields must be used within a FieldsProvider").
Proof.
  destruct (FormProvider_needs_fields (V := jsval) 1%positive 2%positive
              (λ fields, JArr [fields]) []) as [Houtside _].
  - discriminate.
  - apply Houtside. apply not_elem_of_nil.
Defined.

Section FormFacts.
Context {R E : Type}.
Implicit Types (submitter : jsval → Async E R) (st : GuardState R).

(** What [submit] does when there is something to submit, by the way
    [onSubmit] settles. *)
Lemma useFormHook_submit_proceeds submitter (fields : jsval) inner settled :
  truthy fields = true →
  submitter fields = (inner, settled) →
  useFormHook_submit (Some submitter) fields =
    match settled with
    | Fulfilled data =>
        ([SetLoading true; SetError JNull; Invoke fields] ++ (Inner <$> inner)
           ++ [SetResult data; SetLoading false],
         Fulfilled false)
    | Rejected err =>
        ([SetLoading true; SetError JNull; Invoke fields] ++ (Inner <$> inner)
           ++ [SetError err; SetLoading false],
         Rejected err)
    | Pending =>
        ([SetLoading true; SetError JNull; Invoke fields] ++ (Inner <$> inner), Pending)
    end.
Proof.
  intros Ht Hs. unfold useFormHook_submit, call, lift, mbind, Async_bind, emit. simpl.
  rewrite Ht, Hs. destruct settled; simpl; by rewrite ?app_nil_r, <- ?app_assoc.
Qed.
End FormFacts.

(** X26.  A [submit] whose [onSubmit] is fulfilled: [onSubmit] was called
    once with the current fields, its result is stored in the form's
    [result], [error] is cleared, [loading] is off, and [submit] itself
    resolves with [false], not with the result. *)
Theorem useFormHook_submit_success {R E : Type} (submitter : jsval → Async E R)
    (fields : jsval) (inner : list E) (data : R) (st : GuardState R) :
  truthy fields = true →
  submitter fields = (inner, Fulfilled data) →
  (useFormHook_submit (Some submitter) fields).2 = Fulfilled false
  ∧ invocations (useFormHook_submit (Some submitter) fields).1 = [fields]
  ∧ guard_after (useFormHook_submit (Some submitter) fields).1 st
    = mkGuard false JNull (Some data).
Proof.
  intros Ht Hs. rewrite (useFormHook_submit_proceeds _ _ _ _ Ht Hs). cbn [fst snd].
  rewrite invocations_app, invocations_app, invocations_inner.
  by rewrite !guard_after_app, guard_after_inner.
Qed.

(** The submission of the forms test, "should handle successful form
    submission". *)
Lemma useFormHook_submit_success_witness :
  let onSubmit : jsval → Async unit jsval := λ _, ([], Fulfilled (JStr "success")) in
  let fields := JObj {[ "name" := JStr "test" ]} in
  (useFormHook_submit (Some onSubmit) fields).2 = Fulfilled false
  ∧ invocations (useFormHook_submit (Some onSubmit) fields).1 = [fields]
  ∧ guard_after (useFormHook_submit (Some onSubmit) fields).1 useFormHook_init
    = mkGuard false JNull (Some (JStr "success")).
Proof.
  intros onSubmit fields.
  apply (useFormHook_submit_success onSubmit fields [] (JStr "success") useFormHook_init);
    reflexivity.
Defined.

(** X27.  A [submit] whose [onSubmit] is rejected: the reason is stored in
    the form's [error], the earlier [result] is kept, [loading] is off,
    and [submit] is rejected with the same reason. *)
Theorem useFormHook_submit_failure {R E : Type} (submitter : jsval → Async E R)
    (fields : jsval) (inner : list E) (reason : jsval) (st : GuardState R) :
  truthy fields = true →
  submitter fields = (inner, Rejected reason) →
  (useFormHook_submit (Some submitter) fields).2 = Rejected reason
  ∧ guard_after (useFormHook_submit (Some submitter) fields).1 st
    = mkGuard false reason (result st).
Proof.
  intros Ht Hs. rewrite (useFormHook_submit_proceeds _ _ _ _ Ht Hs). cbn [fst snd].
  by rewrite !guard_after_app, guard_after_inner.
Qed.

(** The submission of the forms test, "should handle form submission
    errors". *)
Lemma useFormHook_submit_failure_witness :
  let error := Error "Submission failed" in
  let onSubmit : jsval → Async unit jsval := λ _, ([], Rejected error) in
  let fields := JObj {[ "name" := JStr "test" ]} in
  (useFormHook_submit (Some onSubmit) fields).2 = Rejected error
  ∧ guard_after (useFormHook_submit (Some onSubmit) fields).1 useFormHook_init
    = mkGuard false error None.
Proof.
  intros error onSubmit fields.
  apply (useFormHook_submit_failure onSubmit fields [] error useFormHook_init);
    reflexivity.
Defined.

(** X28.  A [submit] with no [onSubmit], or with falsy fields, calls
    nothing; it still clears [error] and turns [loading] on and off, keeps
    [result], and resolves with [false]. *)
Theorem useFormHook_submit_nothing {R E : Type} (onSubmit : option (jsval → Async E R))
    (fields : jsval) (st : GuardState R) :
  onSubmit = None ∨ truthy fields = false →
  useFormHook_submit onSubmit fields
  = ([SetLoading true; SetError JNull; SetLoading false], Fulfilled false)
  ∧ invocations (useFormHook_submit onSubmit fields).1 = []
  ∧ guard_after (useFormHook_submit onSubmit fields).1 st
    = mkGuard false JNull (result st).
Proof.
  intros Hnothing.
  assert (Hsubmit : useFormHook_submit onSubmit fields
                    = ([SetLoading true; SetError JNull; SetLoading false], Fulfilled false)).
  { unfold useFormHook_submit. destruct Hnothing as [-> | Hf]; [done|].
    destruct onSubmit; [|done]. by rewrite Hf. }
  by rewrite Hsubmit.
Qed.

(** The form of the forms test, "should handle submission when onSubmit is
    not provided". *)
Lemma useFormHook_submit_nothing_witness :
  invocations (useFormHook_submit (R := jsval) (E := unit) None
                 (JObj {[ "name" := JStr "test" ]})).1 = []
  ∧ guard_after (useFormHook_submit (R := jsval) (E := unit) None
                   (JObj {[ "name" := JStr "test" ]})).1 useFormHook_init
    = mkGuard false JNull None.
Proof.
  destruct (useFormHook_submit_nothing (R := jsval) (E := unit) None
              (JObj {[ "name" := JStr "test" ]}) useFormHook_init) as (_ & Hinv & Hst);
    [by left|].
  split; [exact Hinv|exact Hst].
Defined.

(** ** The forms of a table *)

Section TableFormFacts.
Variable methods : CRUD.
Variable table : string.
Context {E : Type}.
Implicit Types (op : CrudOp) (props : object) (onSuccess : option (jsval → Async E unit)).

Lemma guarded_events_app (t t' : list (FormEvent E)) :
  guarded_events (t ++ t') = guarded_events t ++ guarded_events t'.
Proof. apply omap_app. Qed.

Lemma callback_events_app (t t' : list (FormEvent E)) :
  callback_events (t ++ t') = callback_events t ++ callback_events t'.
Proof. apply omap_app. Qed.

Lemma guarded_events_guarded (t : list (GuardEvent object jsval TableEvent)) :
  guarded_events (E := E) (Guarded <$> t) = t.
Proof.
  induction t as [|ev t IH]; [done|].
  change (ev :: guarded_events (E := E) (Guarded <$> t) = ev :: t). by rewrite IH.
Qed.

Lemma guarded_events_callback (t : list E) : guarded_events (Callback <$> t) = [].
Proof. induction t as [|e t IH]; [done|apply IH]. Qed.

Lemma callback_events_guarded (t : list (GuardEvent object jsval TableEvent)) :
  callback_events (E := E) (Guarded <$> t) = [].
Proof. induction t as [|ev t IH]; [done|apply IH]. Qed.

Lemma callback_events_callback (t : list E) : callback_events (Callback <$> t) = t.
Proof.
  induction t as [|e t IH]; [done|].
  change (e :: callback_events (Callback <$> t) = e :: t). by rewrite IH.
Qed.

(** A handler whose trigger resolved: the callback, if any, is called with
    what it resolved with, [undefined] for a dropped call. *)
Lemma handleSubmit_resolved op loading onSuccess props t resolved :
  table_trigger methods table op loading props = (t, Fulfilled resolved) →
  handleSubmit methods table op loading onSuccess props
  = match onSuccess with
    | None => (Guarded <$> t, Fulfilled (default JUndefined resolved))
    | Some callback =>
        ((Guarded <$> t) ++ (Callback <$> (callback (default JUndefined resolved)).1),
         match (callback (default JUndefined resolved)).2 with
         | Fulfilled _ => Fulfilled (default JUndefined resolved)
         | Rejected exn => Rejected exn
         | Pending => Pending
         end)
    end.
Proof.
  intros Ht. unfold handleSubmit, lift, mbind, Async_bind. rewrite Ht. simpl.
  destruct onSuccess as [callback|]; simpl; [|by rewrite !app_nil_r].
  destruct (callback (default JUndefined resolved)) as [t' [[]| |]]; simpl;
    by rewrite ?app_nil_r.
Qed.

Lemma table_trigger_backend_calls op props :
  backend_calls (inner_events (table_trigger methods table op false props).1)
  = [(op, <["table" := JStr table]> props)].
Proof.
  rewrite table_trigger_inner.
  destruct (table_method_events methods table op props) as (t & -> & Ht & _).
  simpl. by rewrite (backend_calls_mutations t Ht).
Qed.

Lemma useFormHook_submit_inner {R} (submitter : jsval → Async (FormEvent E) R) (fields : jsval) :
  truthy fields = true →
  inner_events (useFormHook_submit (Some submitter) fields).1 = (submitter fields).1.
Proof.
  intros Ht. destruct (submitter fields) as [inner settled] eqn:Hs.
  rewrite (useFormHook_submit_proceeds _ _ _ _ Ht Hs).
  destruct settled; cbn [fst]; rewrite ?inner_events_app, inner_events_inner; simpl;
    by rewrite ?app_nil_r.
Qed.
End TableFormFacts.

(** What the three forms send: [CreateForm] calls the backend's
    [create] with [{ data: fields, table }], [UpdateForm] calls [update]
    with [{ id, data: fields, table }], and [FilterForm] calls [list] with
    the fields themselves and the table, each once per submission. *)
Theorem form_handlers_payloads {E : Type} (methods : CRUD) (table : string)
    (onSuccess : option (jsval → Async E unit)) (id : string) (fields : jsval)
    (filters : object) :
  backend_calls
    (inner_events
       (guarded_events (CreateForm_handleSubmit methods table false onSuccess fields).1))
  = [(OpCreate, {[ "table" := JStr table; "data" := fields ]})]
  ∧ backend_calls
      (inner_events
         (guarded_events (UpdateForm_handleSubmit methods table id false onSuccess fields).1))
    = [(OpUpdate, {[ "table" := JStr table; "id" := JStr id; "data" := fields ]})]
  ∧ backend_calls
      (inner_events
         (guarded_events (FilterForm_handleSubmit methods table false onSuccess filters).1))
    = [(OpList, <["table" := JStr table]> filters)].
Proof.
  assert (Hguarded : ∀ op props,
    guarded_events (handleSubmit methods table op false onSuccess props).1
    = (table_trigger methods table op false props).1).
  { intros op props. unfold handleSubmit, lift, mbind, Async_bind.
    destruct (table_trigger methods table op false props) as [t [resolved| |]]; simpl;
      try apply guarded_events_guarded.
    destruct onSuccess as [callback|]; simpl.
    - destruct (callback (default JUndefined resolved)) as [t' [[]| |]]; simpl;
        by rewrite ?app_nil_r, guarded_events_app, guarded_events_guarded,
             guarded_events_callback, app_nil_r.
    - by rewrite !app_nil_r, guarded_events_guarded. }
  unfold CreateForm_handleSubmit, UpdateForm_handleSubmit, FilterForm_handleSubmit.
  rewrite !Hguarded, !table_trigger_backend_calls. done.
Qed.

(** The submission of the end-to-end scenario: [{ data: { name: 'Bob' } }]. *)
Lemma form_handlers_payloads_witness :
  let methods : CRUD := λ _ _, Fulfilled (JObj {[ "id" := JStr "3"; "name" := JStr "Bob" ]}) in
  let fields := JObj {[ "name" := JStr "Bob" ]} in
  backend_calls
    (inner_events
       (guarded_events
          (CreateForm_handleSubmit (E := unit) methods "users" false None fields).1))
  = [(OpCreate, {[ "table" := JStr "users"; "data" := fields ]})].
Proof.
  intros methods fields.
  by destruct (form_handlers_payloads (E := unit) methods "users" None "3" fields ∅)
    as (Hcreate & _ & _).
Defined.

(** X29.  A form submitted while its guard is loading: the trigger is
    dropped, nothing is sent to the backend, and the handler goes on with
    [undefined]: [onSuccess] is called with [undefined], and the handler
    resolves with [undefined]. *)
Theorem form_handlers_while_loading {E : Type} (methods : CRUD) (table : string)
    (callback : jsval → Async E unit) (id : string) (fields : jsval) (filters : object) :
  (callback JUndefined).2 = Fulfilled tt →
  CreateForm_handleSubmit methods table true (Some callback) fields
  = (Callback <$> (callback JUndefined).1, Fulfilled JUndefined)
  ∧ UpdateForm_handleSubmit methods table id true (Some callback) fields
    = (Callback <$> (callback JUndefined).1, Fulfilled JUndefined)
  ∧ FilterForm_handleSubmit methods table true (Some callback) filters
    = (Callback <$> (callback JUndefined).1, Fulfilled JUndefined).
Proof.
  intros Hcb.
  assert (Hdropped : ∀ op props,
    handleSubmit methods table op true (Some callback) props
    = (Callback <$> (callback JUndefined).1, Fulfilled JUndefined)).
  { intros op props.
    rewrite (handleSubmit_resolved methods table op true (Some callback) props [] None)
      by done.
    simpl. by rewrite Hcb. }
  unfold CreateForm_handleSubmit, UpdateForm_handleSubmit, FilterForm_handleSubmit.
  by rewrite !Hdropped.
Qed.

(** The callback is recorded as the value it is called with. *)
Lemma form_handlers_while_loading_witness :
  let methods : CRUD := λ _ _, Fulfilled (JObj {[ "id" := JStr "3" ]}) in
  let onSuccess : jsval → Async jsval unit := λ result, ([result], Fulfilled tt) in
  CreateForm_handleSubmit methods "users" true (Some onSuccess) (JObj {[ "name" := JStr "Bob" ]})
  = ([Callback JUndefined], Fulfilled JUndefined).
Proof.
  intros methods onSuccess.
  by destruct (form_handlers_while_loading methods "users" onSuccess "3"
                 (JObj {[ "name" := JStr "Bob" ]}) ∅ eq_refl) as (Hcreate & _ & _).
Defined.

(** X30.  Submitting a [CreateForm] end to end, when the backend resolves
    with an entity carrying a truthy [id]: the backend's [create] received
    the fields as [data] and the table, the entity is stored in the Index
    under its identity, [onSuccess] was called with it, the form's
    [result] holds it, and [submit] resolves with [false]. *)
Theorem CreateForm_submit_end_to_end {E : Type} (methods : CRUD) (table : string)
    (callback : jsval → Async E unit) (fields entity : object) (index : Index)
    (st : GuardState jsval) :
  methods OpCreate {[ "table" := JStr table; "data" := JObj fields ]}
  = Fulfilled (JObj entity) →
  truthy (get entity "id") = true →
  (callback (JObj entity)).2 = Fulfilled tt →
  backend_calls
    (inner_events
       (guarded_events
          (inner_events
             (useFormHook_submit
                (Some (CreateForm_handleSubmit methods table false (Some callback)))
                (JObj fields)).1)))
  = [(OpCreate, {[ "table" := JStr table; "data" := JObj fields ]})]
  ∧ index_after
      (inner_events
         (guarded_events
            (inner_events
               (useFormHook_submit
                  (Some (CreateForm_handleSubmit methods table false (Some callback)))
                  (JObj fields)).1)))
      index
    = <[id_key entity := JObj entity]> index
  ∧ callback_events
      (inner_events
         (useFormHook_submit
            (Some (CreateForm_handleSubmit methods table false (Some callback)))
            (JObj fields)).1)
    = (callback (JObj entity)).1
  ∧ (useFormHook_submit
       (Some (CreateForm_handleSubmit methods table false (Some callback)))
       (JObj fields)).2 = Fulfilled false
  ∧ guard_after
      (useFormHook_submit
         (Some (CreateForm_handleSubmit methods table false (Some callback)))
         (JObj fields)).1 st
    = mkGuard false JNull (Some (JObj entity)).
Proof.
  intros Hm Hid Hcb.
  assert (Hmethod : table_method methods table OpCreate {[ "data" := JObj fields ]}
                    = ([BackendCall OpCreate {[ "table" := JStr table; "data" := JObj fields ]};
                        IndexSet [entity]],
                       Fulfilled (JObj entity))).
  { rewrite (table_method_fulfilled methods table OpCreate _ (JObj entity)) by done.
    by rewrite Hid. }
  pose proof (table_trigger_inner methods table OpCreate {[ "data" := JObj fields ]})
    as Hinner.
  pose proof (table_trigger_outcome methods table OpCreate _ _ _ Hmethod) as Hout.
  rewrite Hmethod in Hinner. cbn [fst] in Hinner.
  destruct (table_trigger methods table OpCreate false {[ "data" := JObj fields ]})
    as [t outcome] eqn:Htrigger. cbn [fst snd] in Hinner, Hout. subst outcome.
  pose proof (handleSubmit_resolved methods table OpCreate false (Some callback) _ _ _
                Htrigger) as Hhandler.
  change (default JUndefined (Some (JObj entity))) with (JObj entity) in Hhandler.
  cbv beta iota in Hhandler. rewrite Hcb in Hhandler.
  fold (CreateForm_handleSubmit methods table false (Some callback) (JObj fields))
    in Hhandler.
  rewrite (useFormHook_submit_inner
             (CreateForm_handleSubmit methods table false (Some callback)) (JObj fields))
    by done.
  rewrite (useFormHook_submit_proceeds
             (CreateForm_handleSubmit methods table false (Some callback)) (JObj fields)
             _ (Fulfilled (JObj entity)) eq_refl Hhandler).
  rewrite Hhandler. cbn [fst snd].
  rewrite guarded_events_app, guarded_events_guarded, guarded_events_callback, app_nil_r.
  rewrite callback_events_app, callback_events_guarded, callback_events_callback.
  rewrite Hinner, !guard_after_app, guard_after_inner.
  repeat split; try done. apply useIndex_set_one.
Qed.

(** The end-to-end scenario of the specification, started from a form. *)
Lemma CreateForm_submit_end_to_end_witness :
  let bob : object := {[ "id" := JStr "3"; "name" := JStr "Bob" ]} in
  let methods : CRUD := λ _ _, Fulfilled (JObj bob) in
  let onSuccess : jsval → Async jsval unit := λ result, ([result], Fulfilled tt) in
  let submit :=
    useFormHook_submit (Some (CreateForm_handleSubmit methods "users" false (Some onSuccess)))
      (JObj {[ "name" := JStr "Bob" ]}) in
  index_after (inner_events (guarded_events (inner_events submit.1))) ∅ = {[ "3" := JObj bob ]}
  ∧ callback_events (inner_events submit.1) = [JObj bob]
  ∧ guard_after submit.1 useFormHook_init = mkGuard false JNull (Some (JObj bob)).
Proof.
  intros bob methods onSuccess submit.
  destruct (CreateForm_submit_end_to_end methods "users" onSuccess
              {[ "name" := JStr "Bob" ]} bob ∅ useFormHook_init)
    as (_ & Hindex & Hcallback & _ & Hst); [reflexivity..|].
  split; [exact Hindex|]. split; [exact Hcallback|exact Hst].
Defined.
